(** * bandit: multi-armed bandit policies and the experiments they serve

    A shallow embedding of [bandit.go] (the epsilon-greedy and softmax
    policies, the Experiment / Variant / Trial model and the experiment
    parser), followed by the properties of the specification that the code
    has, and the inputs at which it departs from them.

    Conventions of the embedding:
    - Go's [int] is a [Z] kept in the 64-bit range by [wrap];
    - a slice is a [list]; indexing and [make] are fallible and end in a
      run-time panic ([Panics]) exactly where Go's do;
    - [float64] is an instance ([binary64], the kernel's IEEE 754 binary64
      numbers) of the interface [Arith]; the second instance [exact] is
      arithmetic without rounding, over the rationals;
    - what the code imports ([math.Exp], [math/rand], [time.Now], [strconv.Atoi],
      [strings.Fields], [sort.Sort], [encoding/csv] on an opened file, the order
      in which [range] walks a map) is a parameter, grouped in the classes
      below; every closed example instantiates them. *)

From Stdlib Require Import ZArith Floats QArith Qround Qcanon Lia Ascii String.
From stdpp Require Import gmap strings list fin_maps sorting pretty.

Set Default Proof Using "Type".

(* ================================================================= *)
(** ** The Go run time: panics, [int], slices *)

Inductive panic : Type :=
| IndexOutOfRange (i : Z) (len : nat)
| MakesliceLenOutOfRange (n : Z)
| NilPointerDereference
| IntnInvalidArgument (n : Z).

(** A call either returns or panics. *)
Inductive exec (A : Type) : Type :=
| Done (a : A)
| Panics (p : panic).
Arguments Done {A} a.
Arguments Panics {A} p.

#[global] Instance exec_ret : MRet exec := λ A a, Done a.
#[global] Instance exec_bind : MBind exec := λ A B f m,
  match m with
  | Done a => f a
  | Panics p => Panics p
  end.

Definition int_min : Z := (- 2 ^ 63)%Z.
Definition int_max : Z := (2 ^ 63 - 1)%Z.
Definition is_int (z : Z) : Prop := (int_min ≤ z ≤ int_max)%Z.

(** Two's complement wrap-around of a 64-bit [int]. *)
Definition wrap (z : Z) : Z := ((z + 2 ^ 63) `mod` 2 ^ 64 - 2 ^ 63)%Z.
Definition int_add (a b : Z) : Z := wrap (a + b).
Definition int_sub (a b : Z) : Z := wrap (a - b).

(** [len(s)] *)
Definition len {A : Type} (s : list A) : Z := Z.of_nat (length s).

(** [s[i]] as a value *)
Definition index {A : Type} (s : list A) (i : Z) : exec A :=
  if decide (0 ≤ i)%Z then
    match s !! Z.to_nat i with
    | Some x => Done x
    | None => Panics (IndexOutOfRange i (length s))
    end
  else Panics (IndexOutOfRange i (length s)).

(** [s[i] = x] *)
Definition store {A : Type} (s : list A) (i : Z) (x : A) : exec (list A) :=
  if decide (0 ≤ i < len s)%Z then Done (<[Z.to_nat i := x]> s)
  else Panics (IndexOutOfRange i (length s)).

(** [make([]T, n)], [zero] being the zero value of [T] *)
Definition make {A : Type} (zero : A) (n : Z) : exec (list A) :=
  if decide (0 ≤ n)%Z then Done (replicate (Z.to_nat n) zero)
  else Panics (MakesliceLenOutOfRange n).

(** [p.f] through a pointer that may be nil *)
Definition deref {A : Type} (p : option A) : exec A :=
  match p with
  | Some a => Done a
  | None => Panics NilPointerDereference
  end.

(** An [error] value: what [fmt.Errorf] was given, or an error of a library. *)
Inductive fmt_arg : Type :=
| ArgInt (z : Z)
| ArgStr (s : string)
| ArgStrs (l : list string)
| ArgLibErr (msg : string).

Inductive error : Type :=
| Errorf (format : string) (args : list fmt_arg)
| LibError (msg : string).

(* ================================================================= *)
(** ** Arithmetic on rewards *)

(** The operations the policies use on [float64] values. *)
Class Arith (F : Type) : Type := {
  f_zero : F;
  f_one : F;
  f_add : F → F → F;
  f_mul : F → F → F;
  f_div : F → F → F;
  f_gt : F → F → bool;
  f_ge : F → F → bool;
  f_le : F → F → bool;
  f_of_int : Z → F
}.

(** Go's [float64]: IEEE 754 binary64, every operation rounded to nearest
    even on its own (no fused multiply-add, as on amd64); [float64(n)] rounds
    the integer the same way. *)
#[global] Instance binary64 : Arith float := {
  f_zero := 0%float;
  f_one := 1%float;
  f_add := PrimFloat.add;
  f_mul := PrimFloat.mul;
  f_div := PrimFloat.div;
  f_gt := λ a b, PrimFloat.ltb b a;
  f_ge := λ a b, PrimFloat.leb b a;
  f_le := λ a b, PrimFloat.leb a b;
  f_of_int := λ n, SF2Prim (binary_normalize prec emax n 0 false)
}.

(** The same operations without rounding. *)
#[global] Instance exact : Arith Qc := {
  f_zero := 0%Qc;
  f_one := 1%Qc;
  f_add := Qcplus;
  f_mul := Qcmult;
  f_div := Qcdiv;
  f_gt := λ a b, match (b ?= a)%Qc with Lt => true | _ => false end;
  f_ge := λ a b, match (b ?= a)%Qc with Gt => false | _ => true end;
  f_le := λ a b, match (a ?= b)%Qc with Gt => false | _ => true end;
  f_of_int := λ n, Q2Qc (inject_Z n)
}.

(* ================================================================= *)
(** ** Imported packages *)

(** [math.Exp] *)
Class MathLib (F : Type) : Type := {
  math_Exp : F → F
}.

(** [math/rand]: a generator made from a seed, and its two draws.  The
    generator is mutable in Go; here a draw returns the generator after it. *)
Class RandLib (F : Type) : Type := {
  Rand : Type;
  rand_New : Z → Rand;
  rand_Float64 : Rand → F * Rand;
  rand_Intn_pos : Rand → Z → Z * Rand
}.

(** [r.Intn(n)] panics when [n <= 0]. *)
Definition rand_Intn {F : Type} {RF : RandLib F} (g : Rand) (n : Z)
  : exec (Z * Rand) :=
  if decide (n ≤ 0)%Z then Panics (IntnInvalidArgument n)
  else Done (rand_Intn_pos g n).

(** [fmt.Sprintf("%.2f", x)] *)
Class FmtLib (F : Type) : Type := {
  sprintf_2f : F → string
}.

(* ================================================================= *)
(** ** The Bandit interface and its two policies *)

(** [type Bandit interface]; [Reset] reads the clock for a new seed, which
    is its first argument here. *)
Class Bandit (F B : Type) : Type := {
  SelectArm : B → exec (Z * B);
  Update : B → Z → F → exec B;
  Reset : Z → B → exec B;
  Version : B → string
}.

Section Policies.
Context {F : Type} {AF : Arith F} {MF : MathLib F} {RF : RandLib F}
        {FF : FmtLib F}.

(** *** epsilonGreedy *)

Record epsilonGreedy : Type := {
  eg_counts : list Z;
  eg_values : list F;
  eg_epsilon : F;
  eg_arms : Z;
  eg_rand : option Rand
}.

(** [&epsilonGreedy{}] *)
Definition epsilonGreedy_zero : epsilonGreedy :=
  {| eg_counts := []; eg_values := []; eg_epsilon := f_zero;
     eg_arms := 0; eg_rand := None |}.

Definition EpsilonGreedyNew (now arms : Z) (epsilon : F)
  : exec (epsilonGreedy * option error) :=
  if negb (f_ge epsilon f_zero && f_le epsilon f_one) then
    mret (epsilonGreedy_zero, Some (Errorf "epsilon not in [0, 1]" []))
  else
    counts ← make 0%Z arms;
    values ← make f_zero arms;
    mret ({| eg_counts := counts; eg_values := values;
             eg_rand := Some (rand_New now);
             eg_arms := arms; eg_epsilon := epsilon |}, None).

(** The scan for the best arm, [n] iterations from index [i] on:
    [for i := range values { if values[i] > values[arm] { arm = i } }]. *)
Fixpoint best_arm (values : list F) (n : nat) (i arm : Z) : exec Z :=
  match n with
  | O => mret arm
  | S n' =>
      vi ← index values i;
      va ← index values arm;
      best_arm values n' (i + 1)%Z (if f_gt vi va then i else arm)
  end.

Definition epsilonGreedy_SelectArm (e : epsilonGreedy)
  : exec (Z * epsilonGreedy) :=
  g ← deref (eg_rand e);
  let '(u, g) := rand_Float64 g in
  '(arm, g) ← (if f_gt u (eg_epsilon e) then
                 arm ← best_arm (eg_values e) (length (eg_values e)) 0 0;
                 mret (arm, g)
               else rand_Intn g (eg_arms e));
  c ← index (eg_counts e) arm;
  counts ← store (eg_counts e) arm (int_add c 1);
  mret (int_add arm 1,
        {| eg_counts := counts; eg_values := eg_values e;
           eg_epsilon := eg_epsilon e; eg_arms := eg_arms e;
           eg_rand := Some g |}).

(** The running average shared by both policies:
    [((value * float64(count-1)) + reward) / float64(count)]. *)
Definition running_average (value : F) (count : Z) (reward : F) : F :=
  f_div (f_add (f_mul value (f_of_int (int_sub count 1))) reward)
        (f_of_int count).

Definition epsilonGreedy_Update (e : epsilonGreedy) (arm : Z) (reward : F)
  : exec epsilonGreedy :=
  let arm := int_sub arm 1 in
  c ← index (eg_counts e) arm;
  counts ← store (eg_counts e) arm (int_add c 1);
  count ← index counts arm;
  value ← index (eg_values e) arm;
  values ← store (eg_values e) arm (running_average value count reward);
  mret {| eg_counts := counts; eg_values := values;
          eg_epsilon := eg_epsilon e; eg_arms := eg_arms e;
          eg_rand := eg_rand e |}.

Definition epsilonGreedy_Version (e : epsilonGreedy) : string :=
  "EpsilonGreedy(epsilon=" +:+ sprintf_2f (eg_epsilon e) +:+ ")".

Definition epsilonGreedy_Reset (now : Z) (e : epsilonGreedy)
  : exec epsilonGreedy :=
  counts ← make 0%Z (eg_arms e);
  values ← make f_zero (eg_arms e);
  mret {| eg_counts := counts; eg_values := values;
          eg_epsilon := eg_epsilon e; eg_arms := eg_arms e;
          eg_rand := Some (rand_New now) |}.

#[global] Instance epsilonGreedy_Bandit : Bandit F epsilonGreedy := {
  SelectArm := epsilonGreedy_SelectArm;
  Update := epsilonGreedy_Update;
  Reset := epsilonGreedy_Reset;
  Version := epsilonGreedy_Version
}.

(** *** softmax *)

Record softmax : Type := {
  sm_counts : list Z;
  sm_values : list F;
  sm_tau : F;
  sm_arms : Z;
  sm_rand : option Rand
}.

(** [&softmax{}] *)
Definition softmax_zero : softmax :=
  {| sm_counts := []; sm_values := []; sm_tau := f_zero;
     sm_arms := 0; sm_rand := None |}.

Definition SoftmaxNew (now arms : Z) (τ : F) : exec (softmax * option error) :=
  if negb (f_ge τ f_zero) then
    mret (softmax_zero, Some (Errorf "τ not in [0, ∞]" []))
  else
    counts ← make 0%Z arms;
    values ← make f_zero arms;
    mret ({| sm_counts := counts; sm_values := values;
             sm_rand := Some (rand_New now);
             sm_arms := arms; sm_tau := τ |}, None).

(** [math.Exp(value/s.tau)] *)
Definition weight (τ value : F) : F := math_Exp (f_div value τ).

(** First loop: [z = z + math.Exp(value/s.tau)] over the values. *)
Definition partition_sum (τ : F) (values : list F) : F :=
  foldl (λ z value, f_add z (weight τ value)) f_zero values.

(** Second loop: [distribution = append(distribution, math.Exp(value/s.tau)/z)]. *)
Definition distribution (τ z : F) (values : list F) : list F :=
  (λ value, f_div (weight τ value) z) <$> values.

(** Third loop, from index [i] on with the running sum [accum]: [Some i] is
    the early [return i], [None] is leaving the loop at its end. *)
Fixpoint sample (z : F) (ps : list F) (i : Z) (accum : F) : option Z :=
  match ps with
  | [] => None
  | p :: ps' =>
      let accum := f_add accum p in
      if f_gt accum z then Some i else sample z ps' (i + 1)%Z accum
  end.

Definition softmax_SelectArm (s : softmax) : exec (Z * softmax) :=
  let z := partition_sum (sm_tau s) (sm_values s) in
  let distribution := distribution (sm_tau s) z (sm_values s) in
  match sample z distribution 0 f_zero with
  | Some i => mret (i, s)
  | None => mret (int_sub (len distribution) 1, s)
  end.

Definition softmax_Update (s : softmax) (arm : Z) (reward : F) : exec softmax :=
  let arm := int_sub arm 1 in
  c ← index (sm_counts s) arm;
  counts ← store (sm_counts s) arm (int_add c 1);
  count ← index counts arm;
  value ← index (sm_values s) arm;
  values ← store (sm_values s) arm (running_average value count reward);
  mret {| sm_counts := counts; sm_values := values;
          sm_tau := sm_tau s; sm_arms := sm_arms s; sm_rand := sm_rand s |}.

Definition softmax_Version (s : softmax) : string :=
  "Softmax(tau=" +:+ sprintf_2f (sm_tau s) +:+ ")".

Definition softmax_Reset (now : Z) (s : softmax) : exec softmax :=
  counts ← make 0%Z (sm_arms s);
  values ← make f_zero (sm_arms s);
  mret {| sm_counts := counts; sm_values := values;
          sm_tau := sm_tau s; sm_arms := sm_arms s;
          sm_rand := Some (rand_New now) |}.

#[global] Instance softmax_Bandit : Bandit F softmax := {
  SelectArm := softmax_SelectArm;
  Update := softmax_Update;
  Reset := softmax_Reset;
  Version := softmax_Version
}.

End Policies.

(* ================================================================= *)
(** ** Experiments, variants and trials *)

Record Variant : Type := {
  Ordinal : Z;
  URL : string;
  Tag : string
}.

(** [Variant{}] *)
Definition Variant_zero : Variant := {| Ordinal := 0; URL := ""; Tag := "" |}.

Record Experiment : Type := {
  Name : string;
  Variants : list Variant
}.

Definition GetVariant (e : Experiment) (ordinal : Z)
  : exec (Variant * option error) :=
  let l := len (Variants e) in
  if bool_decide (ordinal < 0)%Z || bool_decide (ordinal > l)%Z then
    mret (Variant_zero,
          Some (Errorf "ordinal %d not in [1,%d]" [ArgInt ordinal; ArgInt l]))
  else
    v ← index (Variants e) (int_sub ordinal 1);
    mret (v, None).

Definition GetTaggedVariant (e : Experiment) (tag : string)
  : Variant * option error :=
  match List.find (λ variant, bool_decide (Tag variant = tag)) (Variants e) with
  | Some variant => (variant, None)
  | None =>
      (Variant_zero,
       Some (Errorf "tag '%s' is not in experiment %s" [ArgStr tag; ArgStr (Name e)]))
  end.

(** [Variants.Less] *)
Definition Variants_Less (a b : Variant) : Prop := (Ordinal a < Ordinal b)%Z.

(** The order [sort.Sort] leaves two elements in: the later one is not
    [Less] than the earlier one. *)
Definition Ordinal_le (a b : Variant) : Prop := ¬ Variants_Less b a.

Record Trial (B : Type) : Type := {
  trial_Bandit : B;
  trial_Experiment : Experiment
}.
Arguments trial_Bandit {B} t.
Arguments trial_Experiment {B} t.

(** [Trial.Select]; the bandit is held by reference, so the trial after the
    call holds the bandit after [SelectArm]. *)
Definition Trial_Select {F B : Type} {BB : Bandit F B} (t : Trial B)
  : exec (Variant * option error * Trial B) :=
  '(selected, b) ← SelectArm (trial_Bandit t);
  r ← GetVariant (trial_Experiment t) selected;
  mret (r, {| trial_Bandit := b; trial_Experiment := trial_Experiment t |}).

(* ================================================================= *)
(** ** The experiment parser *)

(** What opening the file and [csv.Reader.ReadAll] come to. *)
Inductive tsv_file : Type :=
| OpenFails (err : string)
| ReadAllFails (err : string)
| ReadAll (records : list (list string)).

(** The packages the parser imports, and the order in which a [range] over
    a map visits its entries (unspecified in Go). *)
Class ParserLib : Type := {
  os_read : string → tsv_file;
  strconv_Atoi : string → Z + string;
  strings_Fields : string → list string;
  sort_Sort : list Variant → list Variant;
  map_range : ∀ A : Type, gmap string A → list (string * A)
}.
Arguments map_range {_ A} m.

Section Parser.
Context {PL : ParserLib}.

(** The body of the loop over the records: one record validated and
    appended to its experiment's group. *)
Definition parse_record (i : Z) (record : list string)
    (variants : gmap string (list Variant))
  : error + gmap string (list Variant) :=
  match record with
  | [name; field1; url; tag] =>
      match strconv_Atoi field1 with
      | inr err =>
          inl (Errorf "invalid ordinal on line %n: %s" [ArgInt i; ArgLibErr err])
      | inl ordinal =>
          if bool_decide (length (strings_Fields name) ≠ 1) then
            inl (Errorf "experiment has whitespace: %s" [ArgStr name])
          else if bool_decide (length (strings_Fields tag) ≠ 1) then
            inl (Errorf "tag has whitespace: %s" [ArgStr tag])
          else if negb (String.prefix (name +:+ ":") tag) then
            inl (Errorf "tag must start with '%s:'" [ArgStr name])
          else
            inr (<[name := default [] (variants !! name)
                            ++ [{| Ordinal := ordinal; URL := url; Tag := tag |}]]>
                   variants)
      end
  | _ =>
      inl (Errorf "record is not %v long: %v" [ArgInt (len record); ArgStrs record])
  end.

(** [for i, record := range records] *)
Fixpoint group_records (i : Z) (records : list (list string))
    (variants : gmap string (list Variant))
  : error + gmap string (list Variant) :=
  match records with
  | [] => inr variants
  | record :: records' =>
      match parse_record i record variants with
      | inl err => inl err
      | inr variants' => group_records (i + 1)%Z records' variants'
      end
  end.

(** [for i := 0; i < len(variants); i++ { if ord := variants[i].Ordinal;
    ord != i+1 { return ... } }] from index [i] on: the ordinal it stops at. *)
Fixpoint noncontiguous (i : Z) (variants : list Variant) : option Z :=
  match variants with
  | [] => None
  | v :: variants' =>
      if bool_decide (Ordinal v ≠ i + 1)%Z then Some (Ordinal v)
      else noncontiguous (i + 1)%Z variants'
  end.

(** The last loop, over the groups in the order the map yields them. *)
Fixpoint check_groups (groups : list (string * list Variant)) : option error :=
  match groups with
  | [] => None
  | (name, variants) :: groups' =>
      match noncontiguous 0 variants with
      | Some ord =>
          Some (Errorf "%s: variant %d noncontiguous" [ArgStr name; ArgInt ord])
      | None => check_groups groups'
      end
  end.

(** [sort.Sort(variants)] sorts the array that the slice in the map shares
    with the loop variable, so the last loop reads the sorted groups. *)
Definition ParseExperiments (filename : string)
  : gmap string Experiment * option error :=
  match os_read filename with
  | OpenFails err =>
      (∅, Some (Errorf "need a valid input file: %v" [ArgLibErr err]))
  | ReadAllFails err =>
      (∅, Some (Errorf "could not read tsv: %s " [ArgLibErr err]))
  | ReadAll records =>
      match group_records 0 records ∅ with
      | inl err => (∅, Some err)
      | inr variants =>
          let variants := sort_Sort <$> variants in
          let experiments :=
            map_imap (λ name vs, Some {| Name := name; Variants := vs |})
                     variants in
          match check_groups (map_range variants) with
          | Some err => (∅, Some err)
          | None => (experiments, None)
          end
      end
  end.

End Parser.

(* ================================================================= *)
(** ** Runs of a bandit *)

(** [n] consecutive calls [b.Update(arm, reward)]. *)
Fixpoint repeat_Update {F B : Type} {BB : Bandit F B}
    (n : nat) (b : B) (arm : Z) (reward : F) : exec B :=
  match n with
  | O => mret b
  | S n' => b' ← Update b arm reward; repeat_Update n' b' arm reward
  end.

(** The states a bandit goes through: [new] holds of what the constructor
    returned, and every call that returns leads to a further state.  Ordinals
    and arm counts are Go [int]s. *)
Inductive reachable {F B : Type} {BB : Bandit F B} (new : B → Prop)
  : B → Prop :=
| reach_new b :
    new b → reachable new b
| reach_SelectArm b arm b' :
    reachable new b → SelectArm b = Done (arm, b') → reachable new b'
| reach_Update b arm reward b' :
    reachable new b → is_int arm → Update b arm reward = Done b' →
    reachable new b'
| reach_Reset now b b' :
    reachable new b → Reset now b = Done b' → reachable new b'.

Definition epsilonGreedy_new {F : Type} {AF : Arith F} {RF : RandLib F}
    (e : epsilonGreedy) : Prop :=
  ∃ now arms epsilon,
    is_int arms ∧ EpsilonGreedyNew now arms epsilon = Done (e, None).

Definition softmax_new {F : Type} {AF : Arith F} {RF : RandLib F}
    (s : softmax) : Prop :=
  ∃ now arms τ, is_int arms ∧ SoftmaxNew now arms τ = Done (s, None).

(** A constructor's [error] result. *)
Definition construction_error {B : Type} (m : exec (B * option error)) : Prop :=
  ∃ b err, m = Done (b, Some err).

(* ================================================================= *)
(** ** Stand-ins for the imported packages, for closed examples *)

(** A linear congruential generator on 64 bits. *)
Definition lcg_next (g : Z) : Z :=
  ((g * 6364136223846793005 + 1442695040888963407) `mod` 2 ^ 64)%Z.

Definition lcg {F : Type} {AF : Arith F} : RandLib F := {|
  Rand := Z;
  rand_New := λ seed, (seed `mod` 2 ^ 64)%Z;
  rand_Float64 := λ g,
    (f_div (f_of_int (g `div` 2 ^ 11)) (f_of_int (2 ^ 53)), lcg_next g);
  rand_Intn_pos := λ g n, (((g `div` 2 ^ 33) `mod` n)%Z, lcg_next g)
|}.

(** A truncated Taylor series in place of [math.Exp]; like [math.Exp] it
    sends NaN to NaN and 0 to 1. *)
Definition series_Exp : MathLib float := {|
  math_Exp := λ x,
    foldr (λ k acc, 1 + x / f_of_int (Z.of_nat k) * acc)%float 1%float (seq 1 24)
|}.

(** ["%.2f"] of a binary64 number: hundredths, rounded to nearest even. *)
Definition hundredths (m : positive) (e : Z) : Z :=
  let q := (inject_Z (Z.pos m) * 100 * (2 # 1) ^ e)%Q in
  let n := Qfloor q in
  match (q - inject_Z n ?= 1 # 2)%Q with
  | Lt => n
  | Gt => (n + 1)%Z
  | Eq => if Z.even n then n else (n + 1)%Z
  end.

Definition pad2 (n : Z) : string :=
  if bool_decide (n < 10)%Z then "0" +:+ pretty n else pretty n.

Definition fmt_2f : FmtLib float := {|
  sprintf_2f := λ x,
    match Prim2SF x with
    | S754_nan => "NaN"
    | S754_infinity s => if s then "-Inf" else "+Inf"
    | S754_zero s => if s then "-0.00" else "0.00"
    | S754_finite s m e =>
        let h := hundredths m e in
        (if s then "-" else "") +:+ pretty (h `div` 100)%Z +:+ "."
          +:+ pad2 (h `mod` 100)%Z
    end
|}.

(** [strconv.Atoi] on decimal digits with an optional sign. *)
Definition digit_of (c : ascii) : option Z :=
  let n := Z.of_N (N_of_ascii c) in
  if bool_decide (48 ≤ n ≤ 57)%Z then Some (n - 48)%Z else None.

Fixpoint digits_value (acc : Z) (s : string) : option Z :=
  match s with
  | EmptyString => Some acc
  | String c s' =>
      match digit_of c with
      | Some d => digits_value (10 * acc + d)%Z s'
      | None => None
      end
  end.

Definition decimal_Atoi (s : string) : Z + string :=
  let unsigned (t : string) : option Z :=
    match t with
    | EmptyString => None
    | _ => digits_value 0 t
    end in
  let signed : option Z :=
    match s with
    | String "-" t => Z.opp <$> unsigned t
    | String "+" t => unsigned t
    | _ => unsigned s
    end in
  match signed with
  | Some z =>
      if bool_decide (int_min ≤ z ≤ int_max)%Z then inl z
      else inr "value out of range"
  | None => inr "invalid syntax"
  end.

(** [strings.Fields] for ASCII white space. *)
Definition is_space (c : ascii) : bool :=
  let n := N_of_ascii c in
  bool_decide (n = 32 ∨ 9 ≤ n ≤ 13)%N.

Fixpoint fields_from (cur : string) (s : string) : list string :=
  let flush (rest : list string) : list string :=
    match cur with
    | EmptyString => rest
    | _ => String.rev cur :: rest
    end in
  match s with
  | EmptyString => flush []
  | String c s' =>
      if is_space c then flush (fields_from "" s')
      else fields_from (String c cur) s'
  end.

#[global] Instance Ordinal_le_dec : RelDecision Ordinal_le.
Proof. intros a b. unfold Ordinal_le, Variants_Less. apply _. Defined.

(** The packages of the parser over a file system that holds [records]
    under every name. *)
Definition one_file (records : list (list string)) : ParserLib := {|
  os_read := λ _, ReadAll records;
  strconv_Atoi := decimal_Atoi;
  strings_Fields := fields_from "";
  sort_Sort := merge_sort Ordinal_le;
  map_range := λ A, map_to_list
|}.

(* ================================================================= *)
(** ** The embedding at work *)

Example int_add_wraps : int_add int_max 1 = int_min.
Proof. reflexivity. Qed.

Example index_out_of_range : index [10; 20]%Z 2 = Panics (IndexOutOfRange 2 2).
Proof. reflexivity. Qed.

Example Version_of_epsilon :
  epsilonGreedy_Version (RF := lcg) (FF := fmt_2f)
    {| eg_counts := []; eg_values := []; eg_epsilon := 0x1.999999999999ap-4%float;
       eg_arms := 0; eg_rand := None |}
  = "EpsilonGreedy(epsilon=0.10)".
Proof. reflexivity. Qed.

Example Update_averages :
  (e ← epsilonGreedy_Update (RF := lcg)
          {| eg_counts := [0; 3]%Z; eg_values := [0; 2]%float;
             eg_epsilon := 0.5%float; eg_arms := 2; eg_rand := None |} 2 6%float;
   mret (eg_counts e, eg_values e))
  = Done ([0; 4]%Z, [0; 3]%float).
Proof. reflexivity. Qed.

Example GetVariant_second :
  GetVariant {| Name := "exp";
                Variants := [{| Ordinal := 1; URL := "/a"; Tag := "exp:a" |};
                             {| Ordinal := 2; URL := "/b"; Tag := "exp:b" |}] |} 2
  = Done ({| Ordinal := 2; URL := "/b"; Tag := "exp:b" |}, None).
Proof. reflexivity. Qed.

Example ParseExperiments_two_variants :
  ParseExperiments
    (PL := one_file [["exp"; "2"; "/b"; "exp:b"]; ["exp"; "1"; "/a"; "exp:a"]])
    "experiments.tsv"
  = ({[ "exp" := {| Name := "exp";
                    Variants := [{| Ordinal := 1; URL := "/a"; Tag := "exp:a" |};
                                 {| Ordinal := 2; URL := "/b"; Tag := "exp:b" |}] |} ]},
     None).
Proof. vm_compute. reflexivity. Qed.

Example ParseExperiments_prefix_mismatch :
  ParseExperiments (PL := one_file [["exp"; "1"; "/a"; "other:a"]]) "experiments.tsv"
  = (∅, Some (Errorf "tag must start with '%s:'" [ArgStr "exp"])).
Proof. vm_compute. reflexivity. Qed.

(* ================================================================= *)
(** * Properties *)

(** ** The run time *)

Lemma wrap_id (z : Z) : is_int z → wrap z = z.
Proof.
  unfold is_int, int_min, int_max, wrap. intros Hz.
  rewrite Z.mod_small by lia. lia.
Qed.

Lemma index_Done {A : Type} (s : list A) (i : Z) (x : A) :
  index s i = Done x ↔ (0 ≤ i)%Z ∧ s !! Z.to_nat i = Some x.
Proof.
  unfold index. destruct (decide (0 ≤ i)%Z) as [Hi|Hi].
  - destruct (s !! Z.to_nat i) eqn:E; split.
    + intros [= ->]. auto.
    + intros [_ [= ->]]. reflexivity.
    + discriminate.
    + intros [_ [=]].
  - split; [discriminate | intros [? _]; lia].
Qed.

Lemma index_in_range {A : Type} (s : list A) (i : Z) :
  (0 ≤ i < len s)%Z → ∃ x, index s i = Done x ∧ s !! Z.to_nat i = Some x.
Proof.
  unfold len. intros Hi.
  destruct (lookup_lt_is_Some_2 s (Z.to_nat i)) as [x Hx]; [lia|].
  exists x. split; [|assumption]. apply index_Done. split; [lia | assumption].
Qed.

Lemma store_in_range {A : Type} (s : list A) (i : Z) (x : A) :
  (0 ≤ i < len s)%Z → store s i x = Done (<[Z.to_nat i := x]> s).
Proof. intros Hi. unfold store. rewrite decide_True by assumption. reflexivity. Qed.

Lemma store_Done {A : Type} (s s' : list A) (i : Z) (x : A) :
  store s i x = Done s' → (0 ≤ i < len s)%Z ∧ s' = <[Z.to_nat i := x]> s.
Proof.
  unfold store. destruct (decide _) as [Hi|Hi]; [|discriminate].
  intros [= <-]. auto.
Qed.

Lemma make_Done {A : Type} (zero : A) (n : Z) :
  (0 ≤ n)%Z → make zero n = Done (replicate (Z.to_nat n) zero).
Proof. intros Hn. unfold make. rewrite decide_True by assumption. reflexivity. Qed.

Lemma make_inv {A : Type} (zero : A) (n : Z) (s : list A) :
  make zero n = Done s → (0 ≤ n)%Z ∧ s = replicate (Z.to_nat n) zero.
Proof.
  unfold make. destruct (decide _) as [Hn|Hn]; [|discriminate].
  intros [= <-]. auto.
Qed.

Lemma len_replicate {A : Type} (zero : A) (n : Z) :
  (0 ≤ n)%Z → len (replicate (Z.to_nat n) zero) = n.
Proof. intros Hn. unfold len. rewrite length_replicate. lia. Qed.

Lemma len_insert {A : Type} (s : list A) (i : nat) (x : A) :
  len (<[i := x]> s) = len s.
Proof. unfold len. rewrite length_insert. reflexivity. Qed.

Lemma bind_Done_inv {A B : Type} (m : exec A) (f : A → exec B) (b : B) :
  m ≫= f = Done b → ∃ a, m = Done a ∧ f a = Done b.
Proof. destruct m as [a|p]; [eauto | discriminate]. Qed.

(** Peel the successful calls off a run that returned. *)
Ltac exec_inv H :=
  repeat match type of H with
    | (_ ≫= _) = Done _ =>
        let a := fresh "a" in
        let Ha := fresh "Ha" in
        apply bind_Done_inv in H as (a & Ha & H)
    end.

(* ================================================================= *)
(** ** epsilonGreedy: the shape of a state, and what each call does to it *)

Section EpsilonGreedyFacts.
Context {F : Type} {AF : Arith F} {RF : RandLib F} {FF : FmtLib F}.

(** What every state of a constructed epsilon-greedy bandit satisfies. *)
Definition eg_wf (e : epsilonGreedy) : Prop :=
  (0 ≤ eg_arms e ≤ int_max)%Z ∧
  len (eg_counts e) = eg_arms e ∧
  len (eg_values e) = eg_arms e ∧
  is_Some (eg_rand e).

(** [r.Intn(n)] is in [[0, n)]: the documented contract of math/rand. *)
Definition Intn_in_range : Prop :=
  ∀ (g : Rand) (n : Z), (0 < n)%Z → (0 ≤ (rand_Intn_pos g n).1 < n)%Z.

Lemma EpsilonGreedyNew_wf now arms epsilon e :
  is_int arms → EpsilonGreedyNew now arms epsilon = Done (e, None) → eg_wf e.
Proof.
  unfold EpsilonGreedyNew, is_int. intros Harms Hnew.
  destruct (negb _); [discriminate|].
  exec_inv Hnew. apply make_inv in Ha as [Hz ->]. apply make_inv in Ha0 as [_ ->].
  injection Hnew as <-. unfold eg_wf; simpl.
  rewrite !len_replicate by assumption. eauto with lia.
Qed.

Lemma best_arm_range (values : list F) (n : nat) (i arm : Z) :
  (0 ≤ i)%Z → (i + Z.of_nat n ≤ len values)%Z → (0 ≤ arm < len values)%Z →
  ∃ a, best_arm values n i arm = Done a ∧ (0 ≤ a < len values)%Z.
Proof.
  revert i arm. induction n as [|n IH]; intros i arm Hi Hn Harm; simpl.
  - eauto.
  - destruct (index_in_range values i) as (vi & -> & _); [lia|].
    destruct (index_in_range values arm) as (va & -> & _); [lia|]. simpl.
    apply IH; [lia | lia |]. destruct (f_gt vi va); lia.
Qed.

(** With no arm the scan does nothing and leaves [arm] at 0. *)
Lemma best_arm_nil (arm : Z) : best_arm [] 0 0 arm = Done arm.
Proof. reflexivity. Qed.

(** [SelectArm] of a well-formed state with at least one arm returns, with a
    1-based ordinal of an arm, whose counter alone it has incremented. *)
Lemma epsilonGreedy_SelectArm_spec (e : epsilonGreedy) :
  Intn_in_range → eg_wf e → (1 ≤ eg_arms e)%Z →
  ∃ arm e',
    epsilonGreedy_SelectArm e = Done (arm, e') ∧
    (1 ≤ arm ≤ eg_arms e)%Z ∧
    (∃ c, eg_counts e !! Z.to_nat (arm - 1) = Some c ∧
          eg_counts e' = <[Z.to_nat (arm - 1) := int_add c 1]> (eg_counts e)) ∧
    eg_values e' = eg_values e ∧ eg_epsilon e' = eg_epsilon e ∧
    eg_arms e' = eg_arms e ∧ is_Some (eg_rand e').
Proof.
  intros HIntn (Harms & Hc & Hv & [g Hg]) H1.
  unfold epsilonGreedy_SelectArm. rewrite Hg. simpl.
  destruct (rand_Float64 g) as [u g1].
  assert (∃ a g2,
    (if f_gt u (eg_epsilon e)
     then arm ← best_arm (eg_values e) (length (eg_values e)) 0 0; mret (arm, g1)
     else rand_Intn g1 (eg_arms e)) = Done (a, g2) ∧ (0 ≤ a < eg_arms e)%Z)
    as (a & g2 & -> & Ha).
  { destruct (f_gt u (eg_epsilon e)).
    - destruct (best_arm_range (eg_values e) (length (eg_values e)) 0 0)
        as (a & -> & Ha); [lia | unfold len; lia | lia |].
      exists a, g1. split; [reflexivity | lia].
    - unfold rand_Intn. rewrite decide_False by lia.
      specialize (HIntn g1 (eg_arms e) ltac:(lia)).
      destruct (rand_Intn_pos g1 (eg_arms e)) as [a g2]. eauto. }
  simpl.
  destruct (index_in_range (eg_counts e) a) as (c & -> & Hca); [lia|]. simpl.
  rewrite store_in_range by lia. simpl.
  assert (int_add a 1 = (a + 1)%Z) as ->.
  { apply wrap_id. unfold is_int, int_min, int_max in *. lia. }
  eexists _, _. split; [reflexivity|]. simpl.
  replace (a + 1 - 1)%Z with a by lia.
  repeat split; eauto with lia.
Qed.

Lemma epsilonGreedy_SelectArm_wf (e e' : epsilonGreedy) (arm : Z) :
  eg_wf e → epsilonGreedy_SelectArm e = Done (arm, e') → eg_wf e'.
Proof.
  intros (Harms & Hc & Hv & Hg) Hsel. unfold epsilonGreedy_SelectArm in Hsel.
  apply bind_Done_inv in Hsel as (g & _ & Hsel).
  destruct (rand_Float64 g) as [u g1].
  apply bind_Done_inv in Hsel as ([a g2] & _ & Hsel).
  exec_inv Hsel. apply store_Done in Ha0 as [_ ->].
  injection Hsel as _ <-. unfold eg_wf; simpl. rewrite len_insert. eauto.
Qed.

(** [Update] on an ordinal of an arm: the arm's counter is incremented and
    its value becomes the running average taken with the new count; no other
    arm, and no parameter, changes. *)
Lemma epsilonGreedy_Update_spec (e : epsilonGreedy) (arm : Z) (reward : F) :
  eg_wf e → (1 ≤ arm ≤ eg_arms e)%Z →
  ∃ c value e',
    eg_counts e !! Z.to_nat (arm - 1) = Some c ∧
    eg_values e !! Z.to_nat (arm - 1) = Some value ∧
    epsilonGreedy_Update e arm reward = Done e' ∧
    eg_counts e' = <[Z.to_nat (arm - 1) := int_add c 1]> (eg_counts e) ∧
    eg_values e' =
      <[Z.to_nat (arm - 1) :=
          f_div (f_add (f_mul value (f_of_int (int_sub (int_add c 1) 1))) reward)
                (f_of_int (int_add c 1))]> (eg_values e) ∧
    eg_epsilon e' = eg_epsilon e ∧ eg_arms e' = eg_arms e ∧
    eg_rand e' = eg_rand e.
Proof.
  intros (Harms & Hc & Hv & Hg) Harm. unfold epsilonGreedy_Update.
  assert (int_sub arm 1 = (arm - 1)%Z) as ->.
  { apply wrap_id. unfold is_int, int_min, int_max in *. lia. }
  destruct (index_in_range (eg_counts e) (arm - 1)) as (c & -> & Hca); [lia|].
  destruct (index_in_range (eg_values e) (arm - 1)) as (v & Hiv & Hva); [lia|].
  simpl. rewrite store_in_range by lia. simpl.
  assert (index (<[Z.to_nat (arm - 1) := int_add c 1]> (eg_counts e)) (arm - 1)
          = Done (int_add c 1)) as ->.
  { apply index_Done. split; [lia|]. apply list_lookup_insert_eq.
    unfold len in Hc. lia. }
  simpl. rewrite Hiv. simpl. rewrite store_in_range by lia. simpl.
  exists c, v. eexists. repeat split; eauto.
Qed.

Lemma epsilonGreedy_Update_wf (e e' : epsilonGreedy) (arm : Z) (reward : F) :
  eg_wf e → epsilonGreedy_Update e arm reward = Done e' → eg_wf e'.
Proof.
  intros (Harms & Hc & Hv & Hg) Hupd. unfold epsilonGreedy_Update in Hupd.
  exec_inv Hupd. apply store_Done in Ha0 as [_ ->]. apply store_Done in Ha3 as [_ ->].
  injection Hupd as <-. unfold eg_wf; simpl. rewrite !len_insert. eauto.
Qed.

(** [Reset]: zeroed counters and values, a fresh generator, the policy
    parameter kept. *)
Lemma epsilonGreedy_Reset_spec (now : Z) (e : epsilonGreedy) :
  (0 ≤ eg_arms e)%Z →
  epsilonGreedy_Reset now e =
    Done {| eg_counts := replicate (Z.to_nat (eg_arms e)) 0%Z;
            eg_values := replicate (Z.to_nat (eg_arms e)) f_zero;
            eg_epsilon := eg_epsilon e; eg_arms := eg_arms e;
            eg_rand := Some (rand_New now) |}.
Proof.
  intros Harms. unfold epsilonGreedy_Reset. rewrite !make_Done by assumption.
  reflexivity.
Qed.

Lemma epsilonGreedy_Reset_wf (now : Z) (e e' : epsilonGreedy) :
  eg_wf e → epsilonGreedy_Reset now e = Done e' → eg_wf e'.
Proof.
  intros (Harms & Hc & Hv & Hg) Hreset.
  rewrite epsilonGreedy_Reset_spec in Hreset by lia. injection Hreset as <-.
  unfold eg_wf; simpl. rewrite !len_replicate by lia. eauto.
Qed.

Lemma epsilonGreedy_reachable_wf (e : epsilonGreedy) :
  reachable epsilonGreedy_new e → eg_wf e.
Proof.
  induction 1 as [e (now & arms & eps & Harms & Hnew) | | |].
  - eapply EpsilonGreedyNew_wf; eassumption.
  - eapply epsilonGreedy_SelectArm_wf; eassumption.
  - eapply epsilonGreedy_Update_wf; [eassumption|]. simpl in *. eassumption.
  - eapply epsilonGreedy_Reset_wf; [eassumption|]. simpl in *. eassumption.
Qed.

End EpsilonGreedyFacts.

(* ================================================================= *)
(** ** softmax: the shape of a state, and what each call does to it *)

Section SoftmaxFacts.
Context {F : Type} {AF : Arith F} {MF : MathLib F} {RF : RandLib F}
        {FF : FmtLib F}.

Definition sm_wf (s : softmax) : Prop :=
  (0 ≤ sm_arms s ≤ int_max)%Z ∧
  len (sm_counts s) = sm_arms s ∧
  len (sm_values s) = sm_arms s ∧
  is_Some (sm_rand s).

Lemma SoftmaxNew_wf now arms τ s :
  is_int arms → SoftmaxNew now arms τ = Done (s, None) → sm_wf s.
Proof.
  unfold SoftmaxNew, is_int. intros Harms Hnew.
  destruct (negb _); [discriminate|].
  exec_inv Hnew. apply make_inv in Ha as [Hz ->]. apply make_inv in Ha0 as [_ ->].
  injection Hnew as <-. unfold sm_wf; simpl.
  rewrite !len_replicate by assumption. eauto with lia.
Qed.

(** The early [return i] of the sampling loop is an index of the loop. *)
Lemma sample_Some_range (z : F) (ps : list F) (i : Z) (accum : F) (k : Z) :
  sample z ps i accum = Some k → (i ≤ k < i + len ps)%Z.
Proof.
  revert i accum. induction ps as [|p ps IH]; intros i accum; simpl.
  - discriminate.
  - unfold len in *. destruct (f_gt _ _).
    + intros [= <-]. simpl. lia.
    + intros Hk%IH. simpl. lia.
Qed.

Lemma len_distribution (τ z : F) (values : list F) :
  len (distribution τ z values) = len values.
Proof. unfold len, distribution. rewrite length_fmap. reflexivity. Qed.

(** [softmax.SelectArm] changes nothing in the bandit, and what it returns
    is a 0-based index: that of the early return, or [len - 1]. *)
Lemma softmax_SelectArm_spec (s : softmax) :
  ∃ i, softmax_SelectArm s = Done (i, s) ∧
       ((0 ≤ i < len (sm_values s))%Z ∨ i = int_sub (len (sm_values s)) 1).
Proof.
  unfold softmax_SelectArm.
  destruct (sample _ _ _ _) as [k|] eqn:Hk.
  - exists k. split; [reflexivity|]. left.
    apply sample_Some_range in Hk. rewrite len_distribution in Hk. lia.
  - eexists. split; [reflexivity|]. right. rewrite len_distribution. reflexivity.
Qed.

Lemma softmax_SelectArm_wf (s s' : softmax) (arm : Z) :
  sm_wf s → softmax_SelectArm s = Done (arm, s') → sm_wf s'.
Proof.
  intros Hwf Hsel. destruct (softmax_SelectArm_spec s) as (i & Hi & _).
  rewrite Hi in Hsel. injection Hsel as _ <-. assumption.
Qed.

Lemma softmax_Update_spec (s : softmax) (arm : Z) (reward : F) :
  sm_wf s → (1 ≤ arm ≤ sm_arms s)%Z →
  ∃ c value s',
    sm_counts s !! Z.to_nat (arm - 1) = Some c ∧
    sm_values s !! Z.to_nat (arm - 1) = Some value ∧
    softmax_Update s arm reward = Done s' ∧
    sm_counts s' = <[Z.to_nat (arm - 1) := int_add c 1]> (sm_counts s) ∧
    sm_values s' =
      <[Z.to_nat (arm - 1) :=
          f_div (f_add (f_mul value (f_of_int (int_sub (int_add c 1) 1))) reward)
                (f_of_int (int_add c 1))]> (sm_values s) ∧
    sm_tau s' = sm_tau s ∧ sm_arms s' = sm_arms s ∧ sm_rand s' = sm_rand s.
Proof.
  intros (Harms & Hc & Hv & Hg) Harm. unfold softmax_Update.
  assert (int_sub arm 1 = (arm - 1)%Z) as ->.
  { apply wrap_id. unfold is_int, int_min, int_max in *. lia. }
  destruct (index_in_range (sm_counts s) (arm - 1)) as (c & -> & Hca); [lia|].
  destruct (index_in_range (sm_values s) (arm - 1)) as (v & Hiv & Hva); [lia|].
  simpl. rewrite store_in_range by lia. simpl.
  assert (index (<[Z.to_nat (arm - 1) := int_add c 1]> (sm_counts s)) (arm - 1)
          = Done (int_add c 1)) as ->.
  { apply index_Done. split; [lia|]. apply list_lookup_insert_eq.
    unfold len in Hc. lia. }
  simpl. rewrite Hiv. simpl. rewrite store_in_range by lia. simpl.
  exists c, v. eexists. repeat split; eauto.
Qed.

Lemma softmax_Update_wf (s s' : softmax) (arm : Z) (reward : F) :
  sm_wf s → softmax_Update s arm reward = Done s' → sm_wf s'.
Proof.
  intros (Harms & Hc & Hv & Hg) Hupd. unfold softmax_Update in Hupd.
  exec_inv Hupd. apply store_Done in Ha0 as [_ ->]. apply store_Done in Ha3 as [_ ->].
  injection Hupd as <-. unfold sm_wf; simpl. rewrite !len_insert. eauto.
Qed.

Lemma softmax_Reset_spec (now : Z) (s : softmax) :
  (0 ≤ sm_arms s)%Z →
  softmax_Reset now s =
    Done {| sm_counts := replicate (Z.to_nat (sm_arms s)) 0%Z;
            sm_values := replicate (Z.to_nat (sm_arms s)) f_zero;
            sm_tau := sm_tau s; sm_arms := sm_arms s;
            sm_rand := Some (rand_New now) |}.
Proof.
  intros Harms. unfold softmax_Reset. rewrite !make_Done by assumption.
  reflexivity.
Qed.

Lemma softmax_Reset_wf (now : Z) (s s' : softmax) :
  sm_wf s → softmax_Reset now s = Done s' → sm_wf s'.
Proof.
  intros (Harms & Hc & Hv & Hg) Hreset.
  rewrite softmax_Reset_spec in Hreset by lia. injection Hreset as <-.
  unfold sm_wf; simpl. rewrite !len_replicate by lia. eauto.
Qed.

Lemma softmax_reachable_wf (s : softmax) :
  reachable softmax_new s → sm_wf s.
Proof.
  induction 1 as [s (now & arms & τ & Harms & Hnew) | | |].
  - eapply SoftmaxNew_wf; eassumption.
  - eapply softmax_SelectArm_wf; [eassumption|]. simpl in *. eassumption.
  - eapply softmax_Update_wf; [eassumption|]. simpl in *. eassumption.
  - eapply softmax_Reset_wf; [eassumption|]. simpl in *. eassumption.
Qed.

End SoftmaxFacts.

(* ================================================================= *)
(** ** Experiment.GetVariant and Trial.Select *)

Lemma GetVariant_in_range (e : Experiment) (ordinal : Z) :
  (1 ≤ ordinal ≤ len (Variants e))%Z → (len (Variants e) ≤ int_max)%Z →
  ∃ v, Variants e !! Z.to_nat (ordinal - 1) = Some v ∧
       GetVariant e ordinal = Done (v, None).
Proof.
  intros Hord Hlen. unfold GetVariant.
  rewrite !bool_decide_eq_false_2 by lia. simpl.
  assert (int_sub ordinal 1 = (ordinal - 1)%Z) as ->.
  { apply wrap_id. unfold is_int, int_min, int_max in *. lia. }
  destruct (index_in_range (Variants e) (ordinal - 1)) as (v & -> & Hv); [lia|].
  eauto.
Qed.

Lemma GetVariant_rejects (e : Experiment) (ordinal : Z) :
  (ordinal < 0 ∨ len (Variants e) < ordinal)%Z →
  GetVariant e ordinal =
    Done (Variant_zero,
          Some (Errorf "ordinal %d not in [1,%d]"
                       [ArgInt ordinal; ArgInt (len (Variants e))])).
Proof.
  intros Hord. unfold GetVariant.
  destruct Hord.
  - rewrite (bool_decide_eq_true_2 (ordinal < 0)%Z) by lia. reflexivity.
  - rewrite (bool_decide_eq_true_2 (ordinal > _)%Z) by lia.
    rewrite orb_true_r. reflexivity.
Qed.

(** C5 (the code departs from the claim at ordinal 0).  The guard of
    [GetVariant] is [ordinal < 0 || ordinal > l], so ordinal 0 passes it and
    the function indexes [Variants[-1]]: the call panics, whatever the
    experiment, and no error is returned. *)
Theorem GetVariant_zero_panics (e : Experiment) :
  GetVariant e 0 = Panics (IndexOutOfRange (-1) (length (Variants e))).
Proof.
  unfold GetVariant.
  rewrite bool_decide_eq_false_2 by lia.
  rewrite bool_decide_eq_false_2 by (unfold len; lia).
  reflexivity.
Qed.

(* ================================================================= *)
(** ** Properties of the policies *)

(** The running average is what [Update] stores, on both policies and in any
    arithmetic: stated once on the arm's slot. *)
Lemma running_average_unfold {F : Type} {AF : Arith F} (value : F) (count : Z) (reward : F) :
  running_average value count reward
  = f_div (f_add (f_mul value (f_of_int (int_sub count 1))) reward) (f_of_int count).
Proof. reflexivity. Qed.

(** The epsilon-greedy half of the range contract: in every state a
    constructed bandit with at least one arm goes through, [SelectArm]
    returns an ordinal in [[1, arms]]. *)
Lemma epsilonGreedy_SelectArm_in_range
    {F : Type} {AF : Arith F} {RF : RandLib F} {FF : FmtLib F} (e : epsilonGreedy) :
  Intn_in_range → reachable epsilonGreedy_new e → (1 ≤ eg_arms e)%Z →
  ∃ arm e', SelectArm e = Done (arm, e') ∧ (1 ≤ arm ≤ eg_arms e)%Z.
Proof.
  intros HIntn Hreach%epsilonGreedy_reachable_wf Harms.
  destruct (epsilonGreedy_SelectArm_spec e HIntn Hreach Harms)
    as (arm & e' & Hsel & Hrange & _).
  eauto.
Qed.

(** One arm: whatever the loop does, the result is 0. *)
Lemma softmax_SelectArm_one_arm
    (MF : MathLib float) (RF : RandLib float) (now : Z) :
  ∃ s, SoftmaxNew now 1 1%float = Done (s, None) ∧
       sm_arms s = 1%Z ∧
       softmax_SelectArm s = Done (0%Z, s).
Proof.
  eexists. split; [reflexivity|]. split; [reflexivity|].
  unfold softmax_SelectArm. simpl.
  destruct (PrimFloat.ltb _ _); reflexivity.
Qed.

(** C1 (the code departs from the claim on softmax).  [softmax.SelectArm]
    returns the loop index [i] or [len(distribution) - 1] without adding 1:
    on a freshly constructed bandit with one arm it returns 0, which is no
    ordinal of [[1, arms]].  The temperature is 1 and the state is the one
    [SoftmaxNew] returned; [math.Exp] and the generator are arbitrary. *)
Theorem softmax_one_arm_selects_zero
    (MF : MathLib float) (RF : RandLib float) (now : Z) :
  ∃ s arm,
    SoftmaxNew now 1 1%float = Done (s, None) ∧
    softmax_SelectArm s = Done (arm, s) ∧
    ¬ (1 ≤ arm ≤ sm_arms s)%Z.
Proof.
  destruct (softmax_SelectArm_one_arm MF RF now) as (s & Hnew & Harms & Hsel).
  exists s, 0%Z. split; [exact Hnew|]. split; [exact Hsel|]. lia.
Qed.

(** C3 (the code departs from the claim on softmax).  [softmax.SelectArm]
    returns the bandit as it was: no counter is incremented, in any state
    and for any arithmetic. *)
Theorem softmax_SelectArm_counts_nothing
    {F : Type} {AF : Arith F} {MF : MathLib F} {RF : RandLib F} (s : softmax) :
  ∃ i s', softmax_SelectArm s = Done (i, s') ∧ sm_counts s' = sm_counts s ∧ s' = s.
Proof.
  destruct (softmax_SelectArm_spec s) as (i & Hi & _). exists i, s. auto.
Qed.

(** The epsilon-greedy half of the counting contract: [SelectArm] increments
    the counter of the arm it returns, and [Update] on that arm increments it
    again. *)
Lemma epsilonGreedy_cycle_counts_twice
    {F : Type} {AF : Arith F} {RF : RandLib F} (e : epsilonGreedy) (reward : F) :
  Intn_in_range → eg_wf e → (1 ≤ eg_arms e)%Z →
  ∃ arm e1 e2 c,
    epsilonGreedy_SelectArm e = Done (arm, e1) ∧
    epsilonGreedy_Update e1 arm reward = Done e2 ∧
    eg_counts e !! Z.to_nat (arm - 1) = Some c ∧
    eg_counts e1 !! Z.to_nat (arm - 1) = Some (int_add c 1) ∧
    eg_counts e2 !! Z.to_nat (arm - 1) = Some (int_add (int_add c 1) 1).
Proof.
  intros HIntn Hwf Harms.
  destruct (epsilonGreedy_SelectArm_spec e HIntn Hwf Harms)
    as (arm & e1 & Hsel & Hrange & (c & Hc & Hc1) & Hv1 & Heps1 & Harms1 & Hg1).
  assert (eg_wf e1) as Hwf1 by (eapply epsilonGreedy_SelectArm_wf; eassumption).
  destruct (epsilonGreedy_Update_spec e1 arm reward Hwf1 ltac:(lia))
    as (c1 & v & e2 & Hc1' & _ & Hupd & Hc2 & _).
  assert (Z.to_nat (arm - 1) < length (eg_counts e)) as Hlt.
  { destruct Hwf as (_ & Hlen & _). unfold len in Hlen. lia. }
  assert (c1 = int_add c 1) as ->.
  { rewrite Hc1, list_lookup_insert_eq in Hc1' by assumption. congruence. }
  exists arm, e1, e2, c.
  split; [exact Hsel|]. split; [exact Hupd|]. split; [exact Hc|]. split.
  - rewrite Hc1. apply list_lookup_insert_eq. assumption.
  - rewrite Hc2, Hc1. apply list_lookup_insert_eq. rewrite length_insert. assumption.
Qed.

(** C7 (amended: softmax rejects exactly the temperatures for which
    [τ >= 0] does not hold).  [EpsilonGreedyNew] returns an error exactly
    when [epsilon >= 0 && epsilon <= 1] does not hold, [SoftmaxNew] exactly
    when [τ >= 0] does not hold; for a parameter in the domain and a
    non-negative number of arms each constructor returns, without error, a
    bandit with every counter and every value zero. *)
Theorem constructors_validate_parameter
    {F : Type} {AF : Arith F} {RF : RandLib F} (now arms : Z) (x : F) :
  (construction_error (EpsilonGreedyNew now arms x)
     ↔ ¬ (f_ge x f_zero = true ∧ f_le x f_one = true)) ∧
  (construction_error (SoftmaxNew now arms x) ↔ f_ge x f_zero ≠ true) ∧
  ((0 ≤ arms)%Z → f_ge x f_zero = true → f_le x f_one = true →
   EpsilonGreedyNew now arms x =
     Done ({| eg_counts := replicate (Z.to_nat arms) 0%Z;
              eg_values := replicate (Z.to_nat arms) f_zero;
              eg_epsilon := x; eg_arms := arms;
              eg_rand := Some (rand_New now) |}, None)) ∧
  ((0 ≤ arms)%Z → f_ge x f_zero = true →
   SoftmaxNew now arms x =
     Done ({| sm_counts := replicate (Z.to_nat arms) 0%Z;
              sm_values := replicate (Z.to_nat arms) f_zero;
              sm_tau := x; sm_arms := arms;
              sm_rand := Some (rand_New now) |}, None)).
Proof.
  unfold construction_error, EpsilonGreedyNew, SoftmaxNew.
  repeat split.
  - intros (b & err & Hnew) [Hge Hle]. rewrite Hge, Hle in Hnew. simpl in Hnew.
    exec_inv Hnew. discriminate.
  - intros Hout. destruct (f_ge x f_zero), (f_le x f_one); simpl; eauto.
    exfalso. auto.
  - intros (b & err & Hnew) Hge. rewrite Hge in Hnew. simpl in Hnew.
    exec_inv Hnew. discriminate.
  - intros Hout. destruct (f_ge x f_zero); simpl; eauto. exfalso. auto.
  - intros Harms -> ->. simpl. rewrite !make_Done by assumption. reflexivity.
  - intros Harms ->. simpl. rewrite !make_Done by assumption. reflexivity.
Qed.

(** On [float64] a NaN parameter is outside both domains. *)
Lemma constructors_reject_nan (RF : RandLib float) (now arms : Z) :
  construction_error (EpsilonGreedyNew now arms nan) ∧
  construction_error (SoftmaxNew now arms nan).
Proof. split; eexists _, _; reflexivity. Qed.

(** C7 as first stated fails: "[SoftmaxNew] fails exactly when [τ < 0] does
    not hold" is refuted by [τ = 1], which is not below 0 and is accepted. *)
Lemma SoftmaxNew_accepts_tau_one :
  ¬ (∀ τ : float,
       construction_error (SoftmaxNew (RF := lcg) 0 2 τ)
       ↔ PrimFloat.ltb τ 0 = false).
Proof.
  intros Hclaim. destruct (Hclaim 1%float) as [_ Herr].
  destruct (Herr eq_refl) as (b & err & Hnew). discriminate Hnew.
Qed.

(** C9.  In every state a constructed bandit goes through, [Reset] returns
    with all counters and all values zero (one per arm), and with the policy
    parameter, hence the [Version] string, as before. *)
Theorem Reset_zeroes_and_keeps_parameter
    {F : Type} {AF : Arith F} {MF : MathLib F} {RF : RandLib F} {FF : FmtLib F} :
  (∀ (e : epsilonGreedy) (now : Z),
     reachable epsilonGreedy_new e →
     ∃ e', Reset now e = Done e' ∧
           eg_counts e' = replicate (Z.to_nat (eg_arms e)) 0%Z ∧
           eg_values e' = replicate (Z.to_nat (eg_arms e)) f_zero ∧
           len (eg_counts e') = eg_arms e ∧ len (eg_values e') = eg_arms e ∧
           eg_arms e' = eg_arms e ∧ eg_epsilon e' = eg_epsilon e ∧
           Version e' = Version e) ∧
  (∀ (s : softmax) (now : Z),
     reachable softmax_new s →
     ∃ s', Reset now s = Done s' ∧
           sm_counts s' = replicate (Z.to_nat (sm_arms s)) 0%Z ∧
           sm_values s' = replicate (Z.to_nat (sm_arms s)) f_zero ∧
           len (sm_counts s') = sm_arms s ∧ len (sm_values s') = sm_arms s ∧
           sm_arms s' = sm_arms s ∧ sm_tau s' = sm_tau s ∧
           Version s' = Version s).
Proof.
  split.
  - intros e now (Harms & _)%epsilonGreedy_reachable_wf.
    eexists. split; [apply epsilonGreedy_Reset_spec; lia|]. simpl.
    rewrite !len_replicate by lia. repeat split.
  - intros s now (Harms & _)%softmax_reachable_wf.
    eexists. split; [apply softmax_Reset_spec; lia|]. simpl.
    rewrite !len_replicate by lia. repeat split.
Qed.

(** A bandit of three arms after one [SelectArm] and the [Update] of the
    selected arm. *)
Definition epsilonGreedy_example : exec epsilonGreedy :=
  '(e, _) ← EpsilonGreedyNew (RF := lcg) 7 3 0.25%float;
  '(arm, e) ← epsilonGreedy_SelectArm e;
  epsilonGreedy_Update e arm 1%float.

Lemma Reset_zeroes_and_keeps_parameter_witness :
  ∃ e e' : epsilonGreedy,
    epsilonGreedy_example = Done e ∧
    eg_counts e = [0; 0; 2]%Z ∧ eg_values e = [0; 0; 0.5]%float ∧
    epsilonGreedy_Reset 11 e = Done e' ∧
    eg_counts e' = [0; 0; 0]%Z ∧ eg_values e' = [0; 0; 0]%float ∧
    epsilonGreedy_Version (FF := fmt_2f) e' = "EpsilonGreedy(epsilon=0.25)" ∧
    epsilonGreedy_Version (FF := fmt_2f) e' = epsilonGreedy_Version (FF := fmt_2f) e.
Proof.
  eexists.
  assert (reachable (BB := epsilonGreedy_Bandit (FF := fmt_2f))
            epsilonGreedy_new
            {| eg_counts := [0; 0; 2]%Z; eg_values := [0; 0; 0.5]%float;
               eg_epsilon := 0.25%float; eg_arms := 3;
               eg_rand := Some (17628806926561717905%Z : Rand (RandLib := lcg)) |})
    as Hreach.
  { eapply reach_Update with (arm := 3%Z) (reward := 1%float);
      [eapply reach_SelectArm with (arm := 3%Z);
         [apply reach_new; exists 7%Z, 3%Z, 0.25%float;
          split; [unfold is_int, int_min, int_max; lia | reflexivity]
         | reflexivity]
      | unfold is_int, int_min, int_max; lia
      | reflexivity]. }
  destruct (proj1 (Reset_zeroes_and_keeps_parameter (MF := series_Exp)) _ 11%Z Hreach)
    as (e' & Hreset & Hc & Hv & _ & _ & _ & _ & Hver).
  simpl in Hreset, Hver.
  exists e'. repeat split; try assumption; try reflexivity.
Defined.

(* ================================================================= *)
(** ** softmax at temperature zero *)

Lemma weight_zero_zero (MF : MathLib float) :
  math_Exp nan = nan → weight 0%float 0%float = nan.
Proof.
  intros Hexp. unfold weight.
  change (f_div 0%float 0%float) with nan. exact Hexp.
Qed.

Lemma partition_sum_nan (MF : MathLib float) (n : nat) :
  math_Exp nan = nan →
  foldl (λ z value, f_add z (weight 0%float value)) nan (replicate n 0%float) = nan.
Proof.
  intros Hexp. induction n as [|n IH]; cbn [foldl replicate]; [reflexivity|].
  rewrite weight_zero_zero by assumption.
  change (f_add nan nan) with nan. exact IH.
Qed.

Lemma sample_nan (n : nat) (i : Z) :
  sample (F := float) nan (replicate n nan) i nan = None.
Proof.
  revert i. induction n as [|n IH]; intros i; cbn [sample replicate]; [reflexivity|].
  change (f_add nan nan) with nan.
  change (f_gt nan nan) with false. cbv iota. apply IH.
Qed.

(** C10.  [SoftmaxNew] accepts the temperature 0.  On the bandit it returns
    (all values zero) every arm value is divided by zero: each quotient is
    [0/0 = NaN], so the partition sum and every weight are NaN, no
    comparison of the sampling loop holds, and [SelectArm] returns
    [len(values) - 1]; for one arm that is 0, outside [[1, arms]].
    [math.Exp] maps NaN to NaN, as its documentation states. *)
Theorem softmax_zero_temperature
    (MF : MathLib float) (RF : RandLib float) (now arms : Z) :
  math_Exp nan = nan → (1 ≤ arms ≤ int_max)%Z →
  ∃ s,
    SoftmaxNew now arms 0%float = Done (s, None) ∧
    sm_arms s = arms ∧ len (sm_values s) = arms ∧
    (∀ value, value ∈ sm_values s → f_div value (sm_tau s) = nan) ∧
    partition_sum (sm_tau s) (sm_values s) = nan ∧
    distribution (sm_tau s) nan (sm_values s) = replicate (Z.to_nat arms) nan ∧
    sample nan (replicate (Z.to_nat arms) nan) 0 f_zero = None ∧
    softmax_SelectArm s = Done ((arms - 1)%Z, s) ∧
    (arms = 1%Z → softmax_SelectArm s = Done (0%Z, s) ∧ ¬ (1 ≤ 0 ≤ sm_arms s)%Z).
Proof.
  intros Hexp Harms.
  destruct (Z.to_nat arms) as [|n] eqn:Hn; [lia|].
  assert (partition_sum 0%float (replicate (S n) 0%float) = nan) as Hz.
  { unfold partition_sum. cbn [foldl replicate].
    rewrite weight_zero_zero by assumption.
    change (f_add f_zero nan) with nan. apply partition_sum_nan. exact Hexp. }
  assert (distribution 0%float nan (replicate (S n) 0%float) = replicate (S n) nan)
    as Hd.
  { unfold distribution. rewrite fmap_replicate.
    rewrite weight_zero_zero by assumption. reflexivity. }
  assert (sample (F := float) nan (replicate (S n) nan) 0 f_zero = None) as Hs.
  { cbn [sample replicate]. change (f_add f_zero nan) with nan.
    change (f_gt nan nan) with false. cbv iota. apply sample_nan. }
  pose (s := {| sm_counts := replicate (S n) 0%Z;
                sm_values := replicate (S n) 0%float;
                sm_tau := 0%float; sm_arms := arms;
                sm_rand := Some (rand_New now) |}).
  assert (softmax_SelectArm s = Done ((arms - 1)%Z, s)) as Hsel.
  { unfold softmax_SelectArm. cbv zeta. unfold s at 1 2 3 4 5 6.
    cbn [sm_tau sm_values].
    rewrite Hz, Hd, Hs. unfold mret, exec_ret. f_equal. f_equal.
    rewrite len_distribution. unfold s, len. cbn [sm_values].
    rewrite length_replicate. replace (Z.of_nat (S n)) with arms by lia.
    apply wrap_id. unfold is_int, int_min, int_max in *. lia. }
  exists s. split.
  { unfold SoftmaxNew. simpl. rewrite !make_Done by lia. rewrite Hn. reflexivity. }
  split; [reflexivity|]. split.
  { unfold s, len. cbn [sm_values]. rewrite length_replicate. lia. }
  split.
  { unfold s. cbn [sm_values sm_tau]. intros value ->%elem_of_replicate_inv.
    reflexivity. }
  split; [exact Hz|]. split; [exact Hd|]. split; [exact Hs|].
  split; [exact Hsel|].
  intros ->. split; [exact Hsel | lia].
Qed.

Lemma softmax_zero_temperature_witness :
  (math_Exp (MathLib := series_Exp) nan = nan ∧ (1 ≤ 1 ≤ int_max)%Z) ∧
  ∃ s, SoftmaxNew (RF := lcg) 5 1 0%float = Done (s, None) ∧
       softmax_SelectArm (MF := series_Exp) s = Done (0%Z, s).
Proof.
  assert (math_Exp (MathLib := series_Exp) nan = nan) as Hexp by reflexivity.
  assert (1 ≤ 1 ≤ int_max)%Z as Harms by (unfold int_max; lia).
  split; [split; assumption|].
  destruct (softmax_zero_temperature series_Exp lcg 5 1 Hexp Harms)
    as (s & Hnew & _ & _ & _ & _ & _ & _ & Hsel & _).
  exists s. split; assumption.
Defined.

(* ================================================================= *)
(** ** The sampling loop of softmax *)

(** The running sum after [k] probabilities, accumulated from [accum] in
    the order of the loop. *)
Definition running_sum {F : Type} {AF : Arith F} (accum : F) (ps : list F) (k : nat) : F :=
  foldl f_add accum (take k ps).

Section Sampling.
Context {F : Type} {AF : Arith F}.

Lemma running_sum_cons (accum p : F) (ps : list F) (k : nat) :
  running_sum accum (p :: ps) (S k) = running_sum (f_add accum p) ps k.
Proof. reflexivity. Qed.

(** The loop reaches its end exactly when no running sum exceeds [z]. *)
Lemma sample_None (z : F) (ps : list F) (i : Z) (accum : F) :
  sample z ps i accum = None ↔
  ∀ k, 1 ≤ k ≤ length ps → f_gt (running_sum accum ps k) z = false.
Proof.
  revert i accum. induction ps as [|p ps IH]; intros i accum; cbn [sample].
  - split; [|reflexivity]. intros _ k Hk. simpl in Hk. lia.
  - destruct (f_gt (f_add accum p) z) eqn:Hgt.
    + split; [discriminate|]. intros Hall.
      specialize (Hall 1 ltac:(simpl; lia)).
      rewrite running_sum_cons in Hall. unfold running_sum in Hall. simpl in Hall.
      congruence.
    + rewrite IH. split.
      * intros Hall [|k] Hk; [lia|]. rewrite running_sum_cons.
        destruct k as [|k]; [exact Hgt|]. apply Hall. simpl in Hk. lia.
      * intros Hall k Hk. rewrite <- running_sum_cons. apply Hall. simpl. lia.
Qed.

(** Otherwise it returns the first index at which the running sum exceeds [z]. *)
Lemma sample_Some (z : F) (ps : list F) (i : Z) (accum : F) (k : nat) :
  k < length ps →
  f_gt (running_sum accum ps (S k)) z = true →
  (∀ k', k' < k → f_gt (running_sum accum ps (S k')) z = false) →
  sample z ps i accum = Some (i + Z.of_nat k)%Z.
Proof.
  revert i accum k. induction ps as [|p ps IH]; intros i accum k Hk Hgt Hfirst.
  - simpl in Hk. lia.
  - cbn [sample]. destruct k as [|k].
    + rewrite running_sum_cons in Hgt. unfold running_sum in Hgt. simpl in Hgt.
      rewrite Hgt. f_equal. lia.
    + pose proof (Hfirst 0 ltac:(lia)) as H0.
      rewrite running_sum_cons in H0. unfold running_sum in H0. simpl in H0.
      rewrite H0. rewrite (IH (i + 1)%Z (f_add accum p) k).
      * f_equal. lia.
      * simpl in Hk. lia.
      * rewrite <- running_sum_cons. exact Hgt.
      * intros k' Hk'. rewrite <- running_sum_cons. apply Hfirst. lia.
Qed.

End Sampling.

(** *** Without rounding *)

Definition Qc_sum (l : list Qc) : Qc := foldl Qcplus 0%Qc l.

Lemma foldl_Qcplus (a : Qc) (l : list Qc) : foldl Qcplus a l = (a + Qc_sum l)%Qc.
Proof.
  unfold Qc_sum. revert a. induction l as [|x l IH]; intros a; simpl.
  - ring.
  - rewrite (IH (a + x)%Qc), (IH (0 + x)%Qc). ring.
Qed.

Lemma Qc_sum_cons (x : Qc) (l : list Qc) : Qc_sum (x :: l) = (x + Qc_sum l)%Qc.
Proof. unfold Qc_sum at 1. simpl. rewrite foldl_Qcplus. ring. Qed.

Lemma Qc_sum_app (l k : list Qc) : Qc_sum (l ++ k) = (Qc_sum l + Qc_sum k)%Qc.
Proof.
  unfold Qc_sum at 1. rewrite foldl_app, foldl_Qcplus. fold (Qc_sum l). reflexivity.
Qed.

Lemma Qc_sum_div (z : Qc) (l : list Qc) :
  Qc_sum ((λ w, w / z)%Qc <$> l) = (Qc_sum l / z)%Qc.
Proof.
  induction l as [|x l IH].
  - unfold Qc_sum. simpl. unfold Qcdiv. ring.
  - rewrite fmap_cons, !Qc_sum_cons, IH. unfold Qcdiv. ring.
Qed.

Lemma Qc_sum_nonneg (l : list Qc) :
  (∀ w, w ∈ l → (1 <= w)%Qc) → (0 <= Qc_sum l)%Qc.
Proof.
  induction l as [|x l IH]; intros Hl.
  - unfold Qc_sum. simpl. apply Qcle_refl.
  - rewrite Qc_sum_cons. apply Qcplus_nonneg_nonneg.
    + apply Qcle_trans with 1%Qc; [discriminate | apply Hl; left].
    + apply IH. intros w Hw. apply Hl. right. exact Hw.
Qed.

Lemma Qc_sum_above_one (l : list Qc) :
  l ≠ [] → (∀ w, w ∈ l → (1 <= w)%Qc) → (1 <= Qc_sum l)%Qc.
Proof.
  destruct l as [|x l]; [congruence|]. intros _ Hl. rewrite Qc_sum_cons.
  rewrite <- (Qcplus_0_r 1). apply Qcplus_le_compat.
  - apply Hl. left.
  - apply Qc_sum_nonneg. intros w Hw. apply Hl. right. exact Hw.
Qed.

Lemma Qc_sum_take (k : nat) (l : list Qc) :
  (∀ w, w ∈ l → (1 <= w)%Qc) → (Qc_sum (take k l) <= Qc_sum l)%Qc.
Proof.
  intros Hl. rewrite <- (take_drop k l) at 2. rewrite Qc_sum_app.
  rewrite <- (Qcplus_0_r (Qc_sum (take k l))) at 1.
  apply Qcplus_le_compat; [apply Qcle_refl|].
  apply Qc_sum_nonneg. intros w Hw. apply Hl. eapply subseteq_drop. exact Hw.
Qed.

(** A share of a sum that is at least 1 does not exceed the sum. *)
Lemma share_below_sum (a z : Qc) :
  (a <= z)%Qc → (1 <= z)%Qc → ¬ (z < a / z)%Qc.
Proof.
  intros Haz Hz Hlt.
  assert (0 < z)%Qc as Hpos by (eapply Qclt_le_trans; [|exact Hz]; reflexivity).
  assert (z ≠ 0%Qc) as Hnz by (intros ->; discriminate Hpos).
  apply (Qcmult_lt_compat_r _ _ z Hpos) in Hlt.
  rewrite (Qcmult_comm (a / z) z), Qcmult_div_r in Hlt by exact Hnz.
  assert (z <= z * z)%Qc as Hzz.
  { rewrite <- (Qcmult_1_l z) at 1. apply Qcmult_le_compat_r; [exact Hz|].
    apply Qclt_le_weak. exact Hpos. }
  eapply Qcle_not_lt; [|exact Hlt]. eapply Qcle_trans; eassumption.
Qed.

Lemma quotient_nonneg (v τ : Qc) : (0 <= v)%Qc → (0 < τ)%Qc → (0 <= v / τ)%Qc.
Proof.
  intros Hv Hτ. apply Qcnot_lt_le. intros Hlt.
  assert (τ ≠ 0%Qc) as Hnz by (intros ->; discriminate Hτ).
  apply (Qcmult_lt_compat_r _ _ τ Hτ) in Hlt.
  rewrite (Qcmult_comm (v / τ) τ), Qcmult_div_r, Qcmult_0_l in Hlt by exact Hnz.
  eapply Qcle_not_lt; eassumption.
Qed.

(** [math.Exp] is at least 1 on the non-negative numbers. *)
Definition Exp_above_one {MF : MathLib Qc} : Prop :=
  ∀ x : Qc, (0 <= x)%Qc → (1 <= math_Exp x)%Qc.

(** Without rounding, with a positive temperature and no negative mean, the
    partition sum is at least 1 and every running sum at most 1: the loop
    reaches its end. *)
Lemma sample_exact_falls_through {MF : MathLib Qc} (τ : Qc) (values : list Qc) :
  Exp_above_one → (0 < τ)%Qc → (∀ v, v ∈ values → (0 <= v)%Qc) →
  sample (partition_sum τ values)
         (distribution τ (partition_sum τ values) values) 0 f_zero = None.
Proof.
  intros Hexp Hτ Hvalues.
  pose (ws := weight τ <$> values).
  assert (∀ w, w ∈ ws → (1 <= w)%Qc) as Hws.
  { intros w (v & -> & Hv)%list_elem_of_fmap. apply Hexp.
    apply quotient_nonneg; [apply Hvalues; exact Hv | exact Hτ]. }
  assert (partition_sum τ values = Qc_sum ws) as Hz.
  { unfold partition_sum, Qc_sum, ws. rewrite foldl_fmap. reflexivity. }
  assert (∀ z, distribution τ z values = (λ w, w / z)%Qc <$> ws) as Hps.
  { intros z. unfold distribution, ws. rewrite <- list_fmap_compose. reflexivity. }
  rewrite Hps, Hz. apply sample_None. intros k Hk.
  rewrite length_fmap in Hk.
  unfold running_sum. rewrite <- fmap_take.
  change (foldl f_add f_zero) with Qc_sum. rewrite Qc_sum_div.
  assert (ws ≠ []) as Hne by (intros Hnil; rewrite Hnil in Hk; simpl in Hk; lia).
  pose proof (share_below_sum _ _ (Qc_sum_take k ws Hws) (Qc_sum_above_one ws Hne Hws))
    as Hshare.
  cbn [f_gt exact].
  destruct (Qc_sum ws ?= Qc_sum (take k ws) / Qc_sum ws)%Qc eqn:Hcmp; try reflexivity.
  exfalso. apply Hshare. apply Qclt_alt. exact Hcmp.
Qed.

(** C2 (amended: the loop falls through in the states in which no running
    sum exceeds Z).  With [z] the partition sum and [ps] the distribution of
    the state: when no running sum of [ps] exceeds [z], the loop reaches its
    end and [SelectArm] returns the last index [len - 1]; when the running
    sum first exceeds [z] at index [k], the early return fires and
    [SelectArm] returns [k].  Without rounding the first case is that of
    every state with a positive temperature and no negative mean. *)
Theorem sampling_loop_characterised :
  (∀ (F : Type) (AF : Arith F) (MF : MathLib F) (RF : RandLib F) (s : softmax),
     let z := partition_sum (sm_tau s) (sm_values s) in
     let ps := distribution (sm_tau s) z (sm_values s) in
     ((∀ k, 1 ≤ k ≤ length ps → f_gt (running_sum f_zero ps k) z = false) →
      sample z ps 0 f_zero = None ∧
      softmax_SelectArm s = Done (int_sub (len (sm_values s)) 1, s)) ∧
     (∀ k, k < length ps →
           f_gt (running_sum f_zero ps (S k)) z = true →
           (∀ k', k' < k → f_gt (running_sum f_zero ps (S k')) z = false) →
           sample z ps 0 f_zero = Some (Z.of_nat k) ∧
           softmax_SelectArm s = Done (Z.of_nat k, s))) ∧
  (∀ (MF : MathLib Qc) (RF : RandLib Qc) (s : softmax),
     Exp_above_one → (0 < sm_tau s)%Qc →
     (∀ v, v ∈ sm_values s → (0 <= v)%Qc) →
     softmax_SelectArm s = Done (int_sub (len (sm_values s)) 1, s)).
Proof.
  split.
  - intros F AF MF RF s z ps. split.
    + intros Hall. apply (sample_None z ps 0 f_zero) in Hall.
      split; [exact Hall|]. unfold softmax_SelectArm. fold z. fold ps.
      rewrite Hall. unfold ps. rewrite len_distribution. reflexivity.
    + intros k Hk Hgt Hfirst.
      pose proof (sample_Some z ps 0 f_zero k Hk Hgt Hfirst) as Hsome.
      rewrite Z.add_0_l in Hsome.
      split; [exact Hsome|]. unfold softmax_SelectArm. fold z. fold ps.
      rewrite Hsome. reflexivity.
  - intros MF RF s Hexp Hτ Hvalues. unfold softmax_SelectArm. cbv zeta.
    rewrite sample_exact_falls_through by assumption.
    rewrite len_distribution. reflexivity.
Qed.

(** Two arms whose rewards were both -5, at temperature 1. *)
Definition softmax_negative_rewards : exec softmax :=
  '(s, _) ← SoftmaxNew (RF := lcg) 0 2 1%float;
  s ← softmax_Update s 1 (-5)%float;
  softmax_Update s 2 (-5)%float.

(** The binary64 number nearest to e^-5, or one of its two neighbours: what
    an implementation of [math.Exp] with an error below one unit in the last
    place returns at -5. *)
Definition near_exp_minus_5 (x : float) : Prop :=
  x = 0x1.b993fe00d5375p-8%float ∨
  x = 0x1.b993fe00d5376p-8%float ∨
  x = 0x1.b993fe00d5377p-8%float.

(** C2 as first stated fails: with two arms of mean -5 at temperature 1 the
    partition sum is about 0.0135, the first running sum is 0.5, and the
    loop returns index 0 at its first iteration, not the last index 1. *)
Lemma sampling_loop_returns_early :
  ∃ s : softmax,
    softmax_negative_rewards = Done s ∧
    sm_values s = [-5; -5]%float ∧ sm_tau s = 1%float ∧
    ∀ MF : MathLib float,
      near_exp_minus_5 (math_Exp (-5)%float) →
      sample (partition_sum (sm_tau s) (sm_values s))
             (distribution (sm_tau s) (partition_sum (sm_tau s) (sm_values s))
                           (sm_values s)) 0 f_zero = Some 0%Z ∧
      softmax_SelectArm s = Done (0%Z, s) ∧
      int_sub (len (sm_values s)) 1 = 1%Z.
Proof.
  exists {| sm_counts := [1; 1]%Z; sm_values := [-5; -5]%float;
            sm_tau := 1%float; sm_arms := 2;
            sm_rand := Some (0%Z : Rand (RandLib := lcg)) |}.
  split; [reflexivity|]. split; [reflexivity|]. split; [reflexivity|].
  intros MF Hexp.
  unfold softmax_SelectArm, partition_sum, distribution, weight.
  cbn [sm_tau sm_values foldl fmap list_fmap].
  change (f_div (-5)%float 1%float) with (-5)%float.
  destruct Hexp as [-> | [-> | ->]]; repeat split; reflexivity.
Qed.

(* ================================================================= *)
(** ** The running mean under [Update] *)

Lemma of_int_succ (c : Z) : f_of_int (F := Qc) (c + 1) = (f_of_int c + 1)%Qc.
Proof.
  unfold f_of_int; simpl. apply Qc_is_canon. simpl.
  rewrite !Qred_correct. rewrite inject_Z_plus. reflexivity.
Qed.

Lemma of_int_nonzero (c : Z) : (0 < c)%Z → f_of_int (F := Qc) c ≠ 0%Qc.
Proof.
  intros Hc Heq. unfold f_of_int in Heq; simpl in Heq.
  change 0%Qc with (Q2Qc 0) in Heq. apply Q2Qc_eq_iff in Heq.
  unfold Qeq in Heq. simpl in Heq. lia.
Qed.

(** Without rounding, averaging [reward] into a mean that already equals it
    (or into the mean of no observation) gives [reward]. *)
Lemma running_average_exact (v r : Qc) (c : Z) :
  (0 ≤ c < int_max)%Z → (c = 0%Z ∨ v = r) →
  running_average v (int_add c 1) r = r.
Proof.
  intros Hc Hv. unfold running_average.
  assert (int_add c 1 = (c + 1)%Z) as ->.
  { apply wrap_id. unfold is_int, int_min, int_max in *. lia. }
  assert (int_sub (c + 1) 1 = c) as ->.
  { unfold int_sub. replace (c + 1 - 1)%Z with c by lia.
    apply wrap_id. unfold is_int, int_min, int_max in *. lia. }
  rewrite of_int_succ.
  pose proof (of_int_nonzero (c + 1) ltac:(lia)) as Hnz. rewrite of_int_succ in Hnz.
  change (@f_div Qc exact) with Qcdiv. change (@f_add Qc exact) with Qcplus.
  change (@f_mul Qc exact) with Qcmult.
  destruct Hv as [-> | ->].
  - change (f_of_int 0) with 0%Qc in *. field. auto.
  - field. auto.
Qed.

Section ExactMean.
Context {RF : RandLib Qc} {MF : MathLib Qc} {FF : FmtLib Qc}.

Lemma epsilonGreedy_repeat_Update_exact (arm : Z) (r : Qc) (n : nat) :
  ∀ (e : epsilonGreedy) (c : Z) (v : Qc),
    eg_wf e → (1 ≤ arm ≤ eg_arms e)%Z →
    eg_counts e !! Z.to_nat (arm - 1) = Some c →
    eg_values e !! Z.to_nat (arm - 1) = Some v →
    (0 ≤ c)%Z → (c + Z.of_nat n ≤ int_max)%Z → (c = 0%Z ∨ v = r) →
    ∃ e', repeat_Update n e arm r = Done e' ∧
          eg_counts e' !! Z.to_nat (arm - 1) = Some (c + Z.of_nat n)%Z ∧
          eg_values e' !! Z.to_nat (arm - 1) = Some (if n is O then v else r).
Proof.
  induction n as [|n IH]; intros e c v Hwf Harm Hc Hv Hc0 Hcn Hmean.
  - exists e. rewrite Z.add_0_r. auto.
  - destruct (epsilonGreedy_Update_spec e arm r Hwf Harm)
      as (c' & v' & e1 & Hc' & Hv' & Hupd & Hc1 & Hv1 & _ & Harms1 & _).
    assert (c' = c) as -> by congruence. assert (v' = v) as -> by congruence.
    assert (eg_wf e1) as Hwf1 by (eapply epsilonGreedy_Update_wf; eassumption).
    assert (Z.to_nat (arm - 1) < length (eg_counts e)) as Hltc
      by (eapply lookup_lt_Some; eassumption).
    assert (Z.to_nat (arm - 1) < length (eg_values e)) as Hltv
      by (eapply lookup_lt_Some; eassumption).
    assert (int_add c 1 = (c + 1)%Z) as Hadd.
    { apply wrap_id. unfold is_int, int_min, int_max in *. lia. }
    destruct (IH e1 (c + 1)%Z r) as (e' & Hrep & Hcount & Hvalue);
      try assumption; try lia.
    + rewrite Hc1, Hadd. apply list_lookup_insert_eq. assumption.
    + rewrite Hv1, <- running_average_unfold.
      rewrite running_average_exact by (assumption || (unfold int_max in *; lia)).
      apply list_lookup_insert_eq. assumption.
    + auto.
    + exists e'. cbn [repeat_Update]. simpl in Hupd |- *. rewrite Hupd. simpl.
      split; [exact Hrep|]. split.
      * rewrite Hcount. f_equal. lia.
      * rewrite Hvalue. destruct n; reflexivity.
Qed.

Lemma softmax_repeat_Update_exact (arm : Z) (r : Qc) (n : nat) :
  ∀ (s : softmax) (c : Z) (v : Qc),
    sm_wf s → (1 ≤ arm ≤ sm_arms s)%Z →
    sm_counts s !! Z.to_nat (arm - 1) = Some c →
    sm_values s !! Z.to_nat (arm - 1) = Some v →
    (0 ≤ c)%Z → (c + Z.of_nat n ≤ int_max)%Z → (c = 0%Z ∨ v = r) →
    ∃ s', repeat_Update n s arm r = Done s' ∧
          sm_counts s' !! Z.to_nat (arm - 1) = Some (c + Z.of_nat n)%Z ∧
          sm_values s' !! Z.to_nat (arm - 1) = Some (if n is O then v else r).
Proof.
  induction n as [|n IH]; intros s c v Hwf Harm Hc Hv Hc0 Hcn Hmean.
  - exists s. rewrite Z.add_0_r. auto.
  - destruct (softmax_Update_spec s arm r Hwf Harm)
      as (c' & v' & s1 & Hc' & Hv' & Hupd & Hc1 & Hv1 & _ & Harms1 & _).
    assert (c' = c) as -> by congruence. assert (v' = v) as -> by congruence.
    assert (sm_wf s1) as Hwf1 by (eapply softmax_Update_wf; eassumption).
    assert (Z.to_nat (arm - 1) < length (sm_counts s)) as Hltc
      by (eapply lookup_lt_Some; eassumption).
    assert (Z.to_nat (arm - 1) < length (sm_values s)) as Hltv
      by (eapply lookup_lt_Some; eassumption).
    assert (int_add c 1 = (c + 1)%Z) as Hadd.
    { apply wrap_id. unfold is_int, int_min, int_max in *. lia. }
    destruct (IH s1 (c + 1)%Z r) as (s' & Hrep & Hcount & Hvalue);
      try assumption; try lia.
    + rewrite Hc1, Hadd. apply list_lookup_insert_eq. assumption.
    + rewrite Hv1, <- running_average_unfold.
      rewrite running_average_exact by (assumption || (unfold int_max in *; lia)).
      apply list_lookup_insert_eq. assumption.
    + auto.
    + exists s'. cbn [repeat_Update]. simpl in Hupd |- *. rewrite Hupd. simpl.
      split; [exact Hrep|]. split.
      * rewrite Hcount. f_equal. lia.
      * rewrite Hvalue. destruct n; reflexivity.
Qed.

End ExactMean.

(** C4 (amended: the mean equals the reward where the arithmetic does not
    round).  In any arithmetic, [Update] on an ordinal of an arm stores
    [(value*(count-1) + reward)/count], [count] being the arm's counter after
    the increment [Update] made.  Without rounding, [n] consecutive
    [Update(arm, r)] on a freshly constructed bandit, [1 <= n <= MaxInt64],
    leave the arm's mean equal to [r]. *)
Theorem Update_running_mean :
  (∀ (F : Type) (AF : Arith F) (RF : RandLib F)
     (e : epsilonGreedy) (arm : Z) (reward : F),
     eg_wf e → (1 ≤ arm ≤ eg_arms e)%Z →
     ∃ value count e',
       eg_values e !! Z.to_nat (arm - 1) = Some value ∧
       epsilonGreedy_Update e arm reward = Done e' ∧
       eg_counts e' !! Z.to_nat (arm - 1) = Some count ∧
       eg_values e' !! Z.to_nat (arm - 1) =
         Some (f_div (f_add (f_mul value (f_of_int (int_sub count 1))) reward)
                     (f_of_int count))) ∧
  (∀ (F : Type) (AF : Arith F) (RF : RandLib F)
     (s : softmax) (arm : Z) (reward : F),
     sm_wf s → (1 ≤ arm ≤ sm_arms s)%Z →
     ∃ value count s',
       sm_values s !! Z.to_nat (arm - 1) = Some value ∧
       softmax_Update s arm reward = Done s' ∧
       sm_counts s' !! Z.to_nat (arm - 1) = Some count ∧
       sm_values s' !! Z.to_nat (arm - 1) =
         Some (f_div (f_add (f_mul value (f_of_int (int_sub count 1))) reward)
                     (f_of_int count))) ∧
  (∀ (RF : RandLib Qc) (FF : FmtLib Qc) (now arms : Z) (epsilon : Qc)
     (e : epsilonGreedy) (arm : Z) (r : Qc) (n : nat),
     is_int arms → EpsilonGreedyNew now arms epsilon = Done (e, None) →
     (1 ≤ arm ≤ arms)%Z → (1 ≤ Z.of_nat n ≤ int_max)%Z →
     ∃ e', repeat_Update n e arm r = Done e' ∧
           eg_values e' !! Z.to_nat (arm - 1) = Some r) ∧
  (∀ (RF : RandLib Qc) (MF : MathLib Qc) (FF : FmtLib Qc) (now arms : Z) (τ : Qc)
     (s : softmax) (arm : Z) (r : Qc) (n : nat),
     is_int arms → SoftmaxNew now arms τ = Done (s, None) →
     (1 ≤ arm ≤ arms)%Z → (1 ≤ Z.of_nat n ≤ int_max)%Z →
     ∃ s', repeat_Update n s arm r = Done s' ∧
           sm_values s' !! Z.to_nat (arm - 1) = Some r).
Proof.
  split; [|split; [|split]].
  - intros F AF RF e arm reward Hwf Harm.
    destruct (epsilonGreedy_Update_spec e arm reward Hwf Harm)
      as (c & v & e' & Hc & Hv & Hupd & Hc' & Hv' & _).
    exists v, (int_add c 1), e'. split; [exact Hv|]. split; [exact Hupd|].
    rewrite Hc', Hv'. split; apply list_lookup_insert_eq;
      eapply lookup_lt_Some; eassumption.
  - intros F AF RF s arm reward Hwf Harm.
    destruct (softmax_Update_spec s arm reward Hwf Harm)
      as (c & v & s' & Hc & Hv & Hupd & Hc' & Hv' & _).
    exists v, (int_add c 1), s'. split; [exact Hv|]. split; [exact Hupd|].
    rewrite Hc', Hv'. split; apply list_lookup_insert_eq;
      eapply lookup_lt_Some; eassumption.
  - intros RF FF now arms epsilon e arm r n Harms Hnew Harm Hn.
    pose proof (EpsilonGreedyNew_wf _ _ _ _ Harms Hnew) as Hwf.
    unfold EpsilonGreedyNew in Hnew. destruct (negb _); [discriminate|].
    exec_inv Hnew. apply make_inv in Ha as [Hz ->]. apply make_inv in Ha0 as [_ ->].
    injection Hnew as <-.
    destruct (epsilonGreedy_repeat_Update_exact arm r n _ 0%Z 0%Qc Hwf)
      as (e' & Hrep & _ & Hvalue); simpl; try lia; auto.
    + apply lookup_replicate_2. lia.
    + apply lookup_replicate_2. lia.
    + exists e'. split; [exact Hrep|]. rewrite Hvalue. destruct n; [lia | reflexivity].
  - intros RF MF FF now arms τ s arm r n Harms Hnew Harm Hn.
    pose proof (SoftmaxNew_wf _ _ _ _ Harms Hnew) as Hwf.
    unfold SoftmaxNew in Hnew. destruct (negb _); [discriminate|].
    exec_inv Hnew. apply make_inv in Ha as [Hz ->]. apply make_inv in Ha0 as [_ ->].
    injection Hnew as <-.
    destruct (softmax_repeat_Update_exact arm r n _ 0%Z 0%Qc Hwf)
      as (s' & Hrep & _ & Hvalue); simpl; try lia; auto.
    + apply lookup_replicate_2. lia.
    + apply lookup_replicate_2. lia.
    + exists s'. split; [exact Hrep|]. rewrite Hvalue. destruct n; [lia | reflexivity].
Qed.

(** Stand-ins over the rationals. *)
Definition fmt_Qc : FmtLib Qc := {|
  sprintf_2f := λ q : Qc, pretty (Qnum q) +:+ "/" +:+ pretty (Z.pos (Qden q))
|}.

(** Three updates with reward 1/10 on arm 2 of a fresh two-arm bandit. *)
Lemma Update_running_mean_witness :
  ∃ e e' : epsilonGreedy,
    (is_int 2 ∧
     EpsilonGreedyNew (F := Qc) (RF := lcg) 0 2 (Q2Qc (1 # 2)) = Done (e, None) ∧
     (1 ≤ 2 ≤ 2)%Z ∧ (1 ≤ Z.of_nat 3 ≤ int_max)%Z) ∧
    repeat_Update (BB := epsilonGreedy_Bandit (FF := fmt_Qc)) 3 e 2 (Q2Qc (1 # 10))
      = Done e' ∧
    eg_values e' !! 1 = Some (Q2Qc (1 # 10)).
Proof.
  eexists.
  assert (is_int 2) as Hint by (unfold is_int, int_min, int_max; lia).
  assert (1 ≤ 2 ≤ 2)%Z as Harm by lia.
  assert (1 ≤ Z.of_nat 3 ≤ int_max)%Z as Hn by (unfold int_max; lia).
  destruct (proj1 (proj2 (proj2 Update_running_mean)) lcg fmt_Qc 0%Z 2%Z
              (Q2Qc (1 # 2)) _ 2%Z (Q2Qc (1 # 10)) 3 Hint eq_refl Harm Hn)
    as (e' & Hrep & Hvalue).
  exists e'.
  split; [split; [exact Hint | split; [reflexivity | split; [exact Harm | exact Hn]]]|].
  split; assumption.
Defined.

(** C4 as first stated fails on [float64]: three updates with the reward
    0.1 leave the mean at 0.10000000000000002. *)
Lemma running_mean_rounds :
  ∃ e e' : epsilonGreedy,
    EpsilonGreedyNew (RF := lcg) 0 1 0.5%float = Done (e, None) ∧
    repeat_Update (BB := epsilonGreedy_Bandit (FF := fmt_2f)) 3 e 1
      0x1.999999999999ap-4%float = Done e' ∧
    eg_values e' = [0x1.999999999999bp-4%float] ∧
    (0x1.999999999999bp-4 =? 0x1.999999999999ap-4)%float = false.
Proof.
  eexists _, _. split; [reflexivity|]. split; [reflexivity|].
  split; reflexivity.
Qed.

(* ================================================================= *)
(** ** The parser: contiguous ordinals *)

(** The ordinals of a group are exactly [1..n]: each once, in any order. *)
Definition contiguous (variants : list Variant) : Prop :=
  Ordinal <$> variants ≡ₚ seqZ 1 (len variants).

(** [sort.Sort] rearranges its argument so that no element is [Less] than
    an earlier one: into ascending ordinals. *)
Definition sort_Sort_sorts {PL : ParserLib} : Prop :=
  ∀ variants, sort_Sort variants ≡ₚ variants ∧ Sorted Ordinal_le (sort_Sort variants).

(** A [range] over a map visits every entry once. *)
Definition map_range_visits_all {PL : ParserLib} : Prop :=
  ∀ (A : Type) (m : gmap string A), map_range m ≡ₚ map_to_list m.

Lemma Sorted_seqZ (m n : Z) : Sorted Z.le (seqZ m n).
Proof.
  destruct (decide (n ≤ 0)%Z) as [Hn|Hn]; [rewrite seqZ_nil by lia; constructor|].
  rewrite <- (Z2Nat.id n) by lia. generalize (Z.to_nat n) as k. clear n Hn.
  intros k. revert m. induction k as [|k IH]; intros m.
  - simpl. constructor.
  - rewrite seqZ_cons by lia.
    replace (Z.pred (Z.of_nat (S k))) with (Z.of_nat k) by lia.
    constructor; [apply IH|].
    destruct k as [|k]; [constructor|].
    rewrite seqZ_cons by lia. constructor. lia.
Qed.

Lemma len_cons {A : Type} (x : A) (l : list A) : len (x :: l) = (len l + 1)%Z.
Proof. unfold len. simpl. lia. Qed.

Lemma len_nonneg {A : Type} (l : list A) : (0 ≤ len l)%Z.
Proof. unfold len. lia. Qed.

Section ParserFacts.
Context {PL : ParserLib}.

(** The check passes a group exactly when its ordinals, in the order it
    reads them, are [i+1, i+2, ...]. *)
Lemma noncontiguous_None (i : Z) (variants : list Variant) :
  noncontiguous i variants = None ↔
  Ordinal <$> variants = seqZ (i + 1) (len variants).
Proof.
  revert i. induction variants as [|v vs IH]; intros i; cbn [noncontiguous].
  - split; reflexivity.
  - rewrite len_cons. pose proof (len_nonneg vs) as Hlen.
    rewrite seqZ_cons by lia.
    replace (Z.pred (len vs + 1)) with (len vs) by lia.
    replace (Z.succ (i + 1)) with (i + 1 + 1)%Z by lia.
    rewrite fmap_cons. case_bool_decide as Hord.
    + split; [discriminate|]. intros [= Hv _]. contradiction.
    + rewrite IH, Hord. split.
      * intros ->. reflexivity.
      * intros [= Hvs]. exact Hvs.
Qed.

(** When it stops, it stops at the first position [k] whose ordinal is not
    [i+k+1], and reports that ordinal. *)
Lemma noncontiguous_Some (i : Z) (variants : list Variant) (ord : Z) :
  noncontiguous i variants = Some ord →
  ∃ (k : nat) (v : Variant),
    variants !! k = Some v ∧ Ordinal v = ord ∧ ord ≠ (i + Z.of_nat k + 1)%Z ∧
    ∀ (j : nat) (w : Variant),
      j < k → variants !! j = Some w → Ordinal w = (i + Z.of_nat j + 1)%Z.
Proof.
  revert i. induction variants as [|v vs IH]; intros i; cbn [noncontiguous].
  - discriminate.
  - case_bool_decide as Hord.
    + intros [= <-]. exists 0, v.
      split; [reflexivity|]. split; [reflexivity|]. split; [lia|].
      intros j w Hj. lia.
    + intros (k & v' & Hk & Hv' & Hne & Hfirst)%IH.
      exists (S k), v'.
      split; [exact Hk|]. split; [exact Hv'|]. split; [lia|].
      intros [|j] w Hj Hw.
      * simpl in Hw. injection Hw as <-. rewrite Hord. lia.
      * simpl in Hw. rewrite (Hfirst j w) by (assumption || lia).
        lia.
Qed.

Lemma check_groups_None (groups : list (string * list Variant)) :
  check_groups groups = None ↔
  ∀ name variants, (name, variants) ∈ groups → noncontiguous 0 variants = None.
Proof.
  induction groups as [|[name vs] groups IH]; cbn [check_groups].
  - split; [|reflexivity]. intros _ name vs Hin. inversion Hin.
  - destruct (noncontiguous 0 vs) as [ord|] eqn:Hvs.
    + split; [discriminate|]. intros Hall.
      rewrite (Hall name vs) in Hvs by left. discriminate.
    + rewrite IH. split.
      * intros Hall name' vs' [Heq | Hin]%elem_of_cons.
        -- injection Heq as -> ->. exact Hvs.
        -- eapply Hall. exact Hin.
      * intros Hall name' vs' Hin. apply (Hall name'). right. exact Hin.
Qed.

Lemma check_groups_Some (groups : list (string * list Variant)) (err : error) :
  check_groups groups = Some err →
  ∃ name variants ord,
    (name, variants) ∈ groups ∧ noncontiguous 0 variants = Some ord ∧
    err = Errorf "%s: variant %d noncontiguous" [ArgStr name; ArgInt ord].
Proof.
  induction groups as [|[name vs] groups IH]; cbn [check_groups].
  - discriminate.
  - destruct (noncontiguous 0 vs) as [ord|] eqn:Hvs.
    + intros [= <-]. exists name, vs, ord. split; [left | auto].
    + intros (name' & vs' & ord & Hin & Hnc & ->)%IH.
      exists name', vs', ord. split; [right; exact Hin | auto].
Qed.

(** After sorting, a group passes the check exactly when it is contiguous. *)
Lemma noncontiguous_sorted (variants : list Variant) :
  sort_Sort_sorts →
  noncontiguous 0 (sort_Sort variants) = None ↔ contiguous variants.
Proof.
  intros Hsort. destruct (Hsort variants) as [Hperm Hsorted].
  assert (len (sort_Sort variants) = len variants) as Hlen.
  { unfold len. rewrite Hperm. reflexivity. }
  rewrite noncontiguous_None, Hlen. change (0 + 1)%Z with 1%Z.
  unfold contiguous. split.
  - intros Heq. rewrite <- Heq, Hperm. reflexivity.
  - intros Hcont. apply (Sorted_unique Z.le).
    + apply (Sorted_fmap _ Ordinal_le); [|exact Hsorted].
      intros x y Hxy. unfold Ordinal_le, Variants_Less in Hxy. lia.
    + apply Sorted_seqZ.
    + rewrite Hperm. exact Hcont.
Qed.

End ParserFacts.

(* ================================================================= *)
(** ** The parser: grouping, and the verdict on ordinals *)

(** The experiment a record names, and the variant it describes. *)
Definition record_name (record : list string) : string :=
  default "" (record !! 0).

Definition record_variant {PL : ParserLib} (record : list string) : option Variant :=
  match record with
  | [_; field1; url; tag] =>
      match strconv_Atoi field1 with
      | inl ordinal => Some {| Ordinal := ordinal; URL := url; Tag := tag |}
      | inr _ => None
      end
  | _ => None
  end.

(** The variants of the records that name [name], in the order of the records. *)
Definition variants_of {PL : ParserLib} (name : string) (records : list (list string))
  : list Variant :=
  omap record_variant (filter (λ record, record_name record = name) records).

Section Grouping.
Context {PL : ParserLib}.

Lemma parse_record_inr (i : Z) (record : list string)
    (m m' : gmap string (list Variant)) :
  parse_record i record m = inr m' →
  ∃ v, record_variant record = Some v ∧
       m' = <[record_name record := default [] (m !! record_name record) ++ [v]]> m.
Proof.
  unfold parse_record, record_variant, record_name.
  destruct record as [|name [|field1 [|url [|tag [|? ?]]]]]; try discriminate.
  destruct (strconv_Atoi field1) as [ordinal|err]; [|discriminate].
  repeat (case_bool_decide; [discriminate|]).
  destruct (negb _); [discriminate|].
  intros [= <-]. eexists. split; reflexivity.
Qed.

(** What the loop over the records leaves in the map: under each name, the
    variants of the records that carry it, in their order. *)
Lemma group_records_spec (records : list (list string)) :
  ∀ (i : Z) (m groups : gmap string (list Variant)) (name : string),
    group_records i records m = inr groups →
    default [] (groups !! name) = default [] (m !! name) ++ variants_of name records.
Proof.
  induction records as [|record records IH]; intros i m groups name; cbn [group_records].
  - intros [= <-]. unfold variants_of. simpl. rewrite app_nil_r. reflexivity.
  - destruct (parse_record i record m) as [err|m1] eqn:Hrec; [discriminate|].
    apply parse_record_inr in Hrec as (v & Hv & ->).
    intros Hgroups%(IH _ _ _ name). rewrite Hgroups. unfold variants_of.
    rewrite filter_cons. destruct (decide (record_name record = name)) as [<-|Hne].
    + rewrite lookup_insert_eq. simpl. rewrite Hv. rewrite <- app_assoc. reflexivity.
    + rewrite lookup_insert_ne by assumption. reflexivity.
Qed.

Lemma group_records_lookup (records : list (list string))
    (groups : gmap string (list Variant)) (name : string) (variants : list Variant) :
  group_records 0 records ∅ = inr groups →
  groups !! name = Some variants → variants = variants_of name records.
Proof.
  intros Hgroups Hname.
  pose proof (group_records_spec records 0 ∅ groups name Hgroups) as Hspec.
  rewrite Hname, lookup_empty in Hspec. exact Hspec.
Qed.

Lemma group_records_nonempty (records : list (list string))
    (groups : gmap string (list Variant)) (name : string) :
  group_records 0 records ∅ = inr groups →
  variants_of name records ≠ [] →
  groups !! name = Some (variants_of name records).
Proof.
  intros Hgroups Hne.
  pose proof (group_records_spec records 0 ∅ groups name Hgroups) as Hspec.
  rewrite lookup_empty in Hspec. simpl in Hspec.
  destruct (groups !! name) as [vs|]; simpl in Hspec; congruence.
Qed.

(** An error of the parser comes with the empty experiment set. *)
Lemma ParseExperiments_error_returns_nothing
    (filename : string) (experiments : gmap string Experiment) (err : error) :
  ParseExperiments filename = (experiments, Some err) → experiments = ∅.
Proof.
  unfold ParseExperiments.
  destruct (os_read filename) as [e|e|records]; try (intros [= <- _]; reflexivity).
  destruct (group_records 0 records ∅) as [e|groups]; [intros [= <- _]; reflexivity|].
  cbv zeta. destruct (check_groups _); [intros [= <- _]; reflexivity | discriminate].
Qed.

End Grouping.

(** C6.  Take records that pass the validation of each record, so that the
    parser reaches the grouping, and among which the ordinals of some
    experiment are not exactly [1..n].  Then [ParseExperiments] returns the
    empty experiment set and the error "<name>: variant <ord> noncontiguous",
    where <name> is an experiment whose ordinals are not exactly [1..n] and
    <ord> is, in ascending order, its first ordinal that is not its position. *)
Theorem ParseExperiments_rejects_noncontiguous {PL : ParserLib}
    (filename : string) (records : list (list string)) (name : string) :
  sort_Sort_sorts → map_range_visits_all →
  os_read filename = ReadAll records →
  (∃ groups, group_records 0 records ∅ = inr groups) →
  ¬ contiguous (variants_of name records) →
  ∃ (name' : string) (ord : Z) (k : nat) (v : Variant),
    ParseExperiments filename =
      (∅, Some (Errorf "%s: variant %d noncontiguous" [ArgStr name'; ArgInt ord])) ∧
    ¬ contiguous (variants_of name' records) ∧
    sort_Sort (variants_of name' records) !! k = Some v ∧
    Ordinal v = ord ∧ ord ≠ (Z.of_nat k + 1)%Z ∧
    ∀ (j : nat) (w : Variant),
      j < k → sort_Sort (variants_of name' records) !! j = Some w →
      Ordinal w = (Z.of_nat j + 1)%Z.
Proof.
  intros Hsort Hrange Hread [groups Hgroups] Hbad.
  assert (groups !! name = Some (variants_of name records)) as Hname.
  { apply group_records_nonempty; [exact Hgroups|]. intros Hnil. apply Hbad.
    unfold contiguous. rewrite Hnil. reflexivity. }
  unfold ParseExperiments. rewrite Hread, Hgroups. cbv zeta.
  pose proof (Hrange _ (sort_Sort <$> groups)) as Hperm.
  destruct (check_groups (map_range (sort_Sort <$> groups))) as [err|] eqn:Hcheck.
  - apply check_groups_Some in Hcheck as (name' & vs & ord & Hin & Hnc & ->).
    rewrite Hperm in Hin. apply elem_of_map_to_list in Hin.
    rewrite lookup_fmap in Hin.
    destruct (groups !! name') as [vs'|] eqn:Hname'; [|discriminate].
    injection Hin as <-.
    apply (group_records_lookup _ _ _ _ Hgroups) in Hname' as ->.
    destruct (noncontiguous_Some _ _ _ Hnc) as (k & v & Hk & Hv & Hne & Hfirst).
    exists name', ord, k, v. split; [reflexivity|]. split.
    { intros Hcont%(noncontiguous_sorted _ Hsort). congruence. }
    split; [exact Hk|]. split; [exact Hv|]. split; [lia|].
    intros j w Hj Hw. rewrite (Hfirst j w Hj Hw). lia.
  - exfalso. apply Hbad. apply (noncontiguous_sorted _ Hsort).
    rewrite check_groups_None in Hcheck. apply (Hcheck name).
    rewrite Hperm. apply elem_of_map_to_list. rewrite lookup_fmap, Hname.
    reflexivity.
Qed.

(** The verdict is exact: records that pass the validation of each record
    and whose groups are all contiguous are accepted, and every experiment
    holds its variants in ascending ordinals. *)
Lemma ParseExperiments_accepts_contiguous {PL : ParserLib}
    (filename : string) (records : list (list string))
    (groups : gmap string (list Variant)) :
  sort_Sort_sorts → map_range_visits_all →
  os_read filename = ReadAll records →
  group_records 0 records ∅ = inr groups →
  (∀ name, contiguous (variants_of name records)) →
  ∃ experiments,
    ParseExperiments filename = (experiments, None) ∧
    ∀ name, experiments !! name =
            (λ vs, {| Name := name; Variants := sort_Sort vs |}) <$> groups !! name.
Proof.
  intros Hsort Hrange Hread Hgroups Hall.
  unfold ParseExperiments. rewrite Hread, Hgroups. cbv zeta.
  pose proof (Hrange _ (sort_Sort <$> groups)) as Hperm.
  assert (check_groups (map_range (sort_Sort <$> groups)) = None) as ->.
  { apply check_groups_None. intros name vs Hin.
    rewrite Hperm in Hin. apply elem_of_map_to_list in Hin.
    rewrite lookup_fmap in Hin.
    destruct (groups !! name) as [vs'|] eqn:Hname; [|discriminate].
    injection Hin as <-. apply (noncontiguous_sorted _ Hsort).
    apply (group_records_lookup _ _ _ _ Hgroups) in Hname as ->. apply Hall. }
  eexists. split; [reflexivity|]. intros name.
  rewrite map_lookup_imap, lookup_fmap.
  destruct (groups !! name); reflexivity.
Qed.

#[global] Instance Ordinal_le_total : Total Ordinal_le.
Proof. intros a b. unfold Ordinal_le, Variants_Less. lia. Qed.

Lemma one_file_sorts (records : list (list string)) :
  sort_Sort_sorts (PL := one_file records).
Proof.
  intros variants. split.
  - apply merge_sort_Permutation.
  - apply Sorted_merge_sort. apply _.
Qed.

Lemma one_file_visits_all (records : list (list string)) :
  map_range_visits_all (PL := one_file records).
Proof. intros A m. reflexivity. Qed.

(** Ordinals 1 and 3 for one experiment: a gap. *)
Definition gap_records : list (list string) :=
  [["exp"; "1"; "/a"; "exp:a"]; ["exp"; "3"; "/b"; "exp:b"]].

Lemma ParseExperiments_rejects_noncontiguous_witness :
  ((∃ groups, group_records (PL := one_file gap_records) 0 gap_records ∅ = inr groups) ∧
   ¬ contiguous (variants_of (PL := one_file gap_records) "exp" gap_records)) ∧
  ParseExperiments (PL := one_file gap_records) "experiments.tsv" =
    (∅, Some (Errorf "%s: variant %d noncontiguous" [ArgStr "exp"; ArgInt 3])).
Proof.
  assert (∃ groups, group_records (PL := one_file gap_records) 0 gap_records ∅
                    = inr groups) as Hvalid.
  { eexists. vm_compute. reflexivity. }
  assert (¬ contiguous (variants_of (PL := one_file gap_records) "exp" gap_records))
    as Hgap.
  { unfold contiguous. vm_compute variants_of. intros Hperm.
    assert (3%Z ∈ seqZ 1 (len [Variant_zero; Variant_zero])) as Hin.
    { rewrite <- Hperm. simpl. right. left. }
    vm_compute in Hin.
    repeat (apply elem_of_cons in Hin as [Hin|Hin]; [discriminate|]).
    inversion Hin. }
  split; [split; assumption|].
  destruct (ParseExperiments_rejects_noncontiguous (PL := one_file gap_records)
              "experiments.tsv" gap_records "exp"
              (one_file_sorts _) (one_file_visits_all _) eq_refl Hvalid Hgap)
    as (name' & ord & k & v & Hparse & _).
  rewrite Hparse. vm_compute in Hparse. injection Hparse as <- <-. reflexivity.
Defined.

(* ================================================================= *)
(** ** Exploitation: the scan for the best arm *)

(** Comparisons behave as a total order on the values that satisfy [ok]. *)
Definition ordered_by {F : Type} {AF : Arith F} (ok : F → Prop) : Prop :=
  (∀ x, ok x → f_le x x = true) ∧
  (∀ x y, ok x → ok y → f_gt x y = false → f_le x y = true) ∧
  (∀ x y z, f_le x y = true → f_gt z y = true → f_gt z x = true) ∧
  (∀ x y, f_gt y x = true → f_le x y = true).

(** [i] is the lowest index among those that hold a greatest value. *)
Definition first_maximal {F : Type} {AF : Arith F} (values : list F) (i : nat) : Prop :=
  ∃ v, values !! i = Some v ∧
       (∀ j w, values !! j = Some w → f_le w v = true) ∧
       (∀ j w, j < i → values !! j = Some w → f_gt v w = true).

Section Scan.
Context {F : Type} {AF : Arith F}.

Lemma best_arm_first_maximal (ok : F → Prop) (values : list F) (n : nat) :
  ordered_by ok → (∀ v, v ∈ values → ok v) →
  ∀ (k a : nat) (va : F),
    k + n = length values →
    values !! a = Some va →
    (∀ j w, j < k → values !! j = Some w → f_le w va = true) →
    (∀ j w, j < a → values !! j = Some w → f_gt va w = true) →
    ∃ a', best_arm values n (Z.of_nat k) (Z.of_nat a) = Done (Z.of_nat a') ∧
          first_maximal values a'.
Proof.
  intros (Hrefl & Htotal & Htrans & Hweak) Hok.
  induction n as [|n IH]; intros k a va Hlen Ha Hmax Hfirst; cbn [best_arm].
  - exists a. split; [reflexivity|]. exists va. split; [exact Ha|]. split; [|exact Hfirst].
    intros j w Hj. apply (Hmax j w); [|exact Hj].
    apply lookup_lt_Some in Hj. lia.
  - destruct (lookup_lt_is_Some_2 values k) as [vk Hk]; [lia|].
    assert (index values (Z.of_nat k) = Done vk) as ->.
    { apply index_Done. rewrite Nat2Z.id. split; [lia | exact Hk]. }
    assert (index values (Z.of_nat a) = Done va) as ->.
    { apply index_Done. rewrite Nat2Z.id. split; [lia | exact Ha]. }
    simpl. replace (Z.of_nat k + 1)%Z with (Z.of_nat (S k)) by lia.
    assert (ok vk) as Hokk by (eapply Hok, list_elem_of_lookup_2; exact Hk).
    assert (ok va) as Hoka by (eapply Hok, list_elem_of_lookup_2; exact Ha).
    destruct (f_gt vk va) eqn:Hgt.
    + apply (IH (S k) k vk); [lia | exact Hk | |].
      * intros j w Hj Hw. destruct (decide (j = k)) as [->|Hne].
        -- assert (w = vk) as -> by congruence. apply Hrefl. exact Hokk.
        -- apply Hweak. apply (Htrans w va vk); [|exact Hgt].
           apply (Hmax j w); [lia | exact Hw].
      * intros j w Hj Hw. apply (Htrans w va vk); [|exact Hgt].
        apply (Hmax j w); [lia | exact Hw].
    + apply (IH (S k) a va); [lia | exact Ha | | exact Hfirst].
      intros j w Hj Hw. destruct (decide (j = k)) as [->|Hne].
      * assert (w = vk) as -> by congruence. apply Htotal; assumption.
      * apply (Hmax j w); [lia | exact Hw].
Qed.

(** The exploiting branch of [SelectArm], for values on which comparisons
    are a total order. *)
Lemma epsilonGreedy_exploit_first_maximal {RF : RandLib F}
    (ok : F → Prop) (e : epsilonGreedy) (g g' : Rand) (u : F) :
  ordered_by ok → (∀ v, v ∈ eg_values e → ok v) →
  eg_rand e = Some g → rand_Float64 g = (u, g') →
  f_gt u (eg_epsilon e) = true →
  (1 ≤ len (eg_values e) ≤ int_max)%Z → len (eg_counts e) = len (eg_values e) →
  ∃ arm e',
    epsilonGreedy_SelectArm e = Done (arm, e') ∧
    (1 ≤ arm ≤ len (eg_values e))%Z ∧
    first_maximal (eg_values e) (Z.to_nat (arm - 1)).
Proof.
  intros Hord Hok Hg Hu Hgt Hlen Hcounts.
  destruct (lookup_lt_is_Some_2 (eg_values e) 0) as [v0 Hv0];
    [unfold len in Hlen; lia|].
  destruct (best_arm_first_maximal ok (eg_values e) (length (eg_values e))
              Hord Hok 0 0 v0) as (a & Hbest & Hmax);
    [lia | exact Hv0 | intros; lia | intros; lia |].
  assert (a < length (eg_values e)) as Ha.
  { destruct Hmax as (v & Hv & _). eapply lookup_lt_Some. exact Hv. }
  unfold epsilonGreedy_SelectArm. rewrite Hg. simpl. rewrite Hu, Hgt.
  change (Z.of_nat 0) with 0%Z in Hbest. rewrite Hbest. simpl.
  destruct (index_in_range (eg_counts e) (Z.of_nat a)) as (c & -> & _);
    [unfold len in *; lia|].
  simpl. rewrite store_in_range by (unfold len in *; lia). simpl.
  assert (int_add (Z.of_nat a) 1 = (Z.of_nat a + 1)%Z) as ->.
  { apply wrap_id. unfold is_int, int_min, int_max, len in *. lia. }
  eexists _, _. split; [reflexivity|]. split; [unfold len; lia|].
  replace (Z.to_nat (Z.of_nat a + 1 - 1)) with a by lia. exact Hmax.
Qed.

End Scan.

(** *** Comparisons of binary64 numbers *)

Ltac cmp_cases :=
  repeat match goal with
  | |- context [Z.compare ?a ?b] => destruct (Z.compare_spec a b); subst
  | H : context [Z.compare ?a ?b] |- _ => destruct (Z.compare_spec a b); subst
  | |- context [Pos.compare_cont Eq ?a ?b] =>
      change (Pos.compare_cont Eq a b) with (Pos.compare a b);
      destruct (Pos.compare_spec a b); subst
  | H : context [Pos.compare_cont Eq ?a ?b] |- _ =>
      change (Pos.compare_cont Eq a b) with (Pos.compare a b) in H;
      destruct (Pos.compare_spec a b); subst
  end; simpl in *; try discriminate; try reflexivity; try lia.

Lemma SFleb_ltb_trans (a b c : spec_float) :
  SFleb a b = true → SFltb b c = true → SFltb a c = true.
Proof.
  unfold SFleb, SFltb, SFcompare.
  destruct a as [[]|[]| |[] ma ea], b as [[]|[]| |[] mb eb], c as [[]|[]| |[] mc ec];
    try discriminate; try reflexivity; intros H1 H2; cmp_cases.
Qed.

Lemma SFltb_false_leb (a b : spec_float) :
  a ≠ S754_nan → b ≠ S754_nan → SFltb a b = false → SFleb b a = true.
Proof.
  unfold SFleb, SFltb, SFcompare.
  destruct a as [[]|[]| |[] ma ea], b as [[]|[]| |[] mb eb];
    try discriminate; try reflexivity; try congruence; intros Ha Hb H1; cmp_cases.
Qed.

Lemma SFleb_refl (a : spec_float) : a ≠ S754_nan → SFleb a a = true.
Proof.
  unfold SFleb, SFcompare.
  destruct a as [[]|[]| |[] ma ea]; try reflexivity; try congruence; intros _;
    rewrite Z.compare_refl;
    change (Pos.compare_cont Eq ma ma) with (Pos.compare ma ma);
    rewrite Pos.compare_refl; reflexivity.
Qed.

Lemma SFltb_leb (a b : spec_float) : SFltb a b = true → SFleb a b = true.
Proof. unfold SFltb, SFleb. destruct (SFcompare a b) as [[]|]; congruence. Qed.

Lemma is_nan_false (x : float) : is_nan x = false → Prim2SF x ≠ S754_nan.
Proof.
  unfold is_nan. rewrite FloatAxioms.eqb_spec. unfold SFeqb.
  intros Hx Hnan. rewrite Hnan in Hx. discriminate.
Qed.

(** Apart from NaN, [<] and [<=] on [float64] are a total order. *)
Lemma binary64_ordered : ordered_by (F := float) (λ x, is_nan x = false).
Proof.
  unfold ordered_by. simpl. repeat split.
  - intros x Hx. rewrite leb_spec. apply SFleb_refl, is_nan_false, Hx.
  - intros x y Hx Hy. rewrite ltb_spec, leb_spec.
    apply SFltb_false_leb; apply is_nan_false; assumption.
  - intros x y z. rewrite !ltb_spec, leb_spec. apply SFleb_ltb_trans.
  - intros x y. rewrite ltb_spec, leb_spec. apply SFltb_leb.
Qed.

(** Without rounding they are one on all values. *)
Lemma exact_ordered : ordered_by (F := Qc) (λ _, True).
Proof.
  unfold ordered_by. cbn [f_le f_gt exact]. repeat split.
  - intros x _. rewrite (proj1 (Qceq_alt x x) eq_refl). reflexivity.
  - intros x y _ _ Hgt. destruct (x ?= y)%Qc eqn:Hxy; try reflexivity.
    pose proof (proj1 (Qclt_alt y x) (proj2 (Qcgt_alt x y) Hxy)) as Hyx.
    rewrite Hyx in Hgt. discriminate.
  - intros x y z Hxy Hyz.
    destruct (y ?= z)%Qc eqn:Hc1; try discriminate.
    pose proof (proj2 (Qclt_alt y z) Hc1) as Hlt.
    assert (x <= y)%Qc as Hle.
    { apply Qcle_alt. intros Hc2. rewrite Hc2 in Hxy. discriminate. }
    rewrite (proj1 (Qclt_alt x z)); [reflexivity|].
    eapply Qcle_lt_trans; eassumption.
  - intros x y Hgt.
    destruct (x ?= y)%Qc eqn:Hc; try discriminate; reflexivity.
Qed.

(** C8 (amended: no NaN among the values).  In a state of an epsilon-greedy
    bandit over [float64] with at least one arm, a counter per arm and no NaN
    among the values, when the draw [u] satisfies [u > epsilon], [SelectArm]
    returns the ordinal of the lowest-index arm among those of greatest
    value: no value is greater than its value, and every earlier value is
    strictly smaller. *)
Theorem exploit_selects_first_maximal
    (RF : RandLib float) (e : epsilonGreedy) (g g' : Rand) (u : float) :
  eg_rand e = Some g → rand_Float64 g = (u, g') →
  f_gt u (eg_epsilon e) = true →
  (1 ≤ len (eg_values e) ≤ int_max)%Z → len (eg_counts e) = len (eg_values e) →
  (∀ v, v ∈ eg_values e → is_nan v = false) →
  ∃ arm e',
    epsilonGreedy_SelectArm e = Done (arm, e') ∧
    (1 ≤ arm ≤ len (eg_values e))%Z ∧
    first_maximal (eg_values e) (Z.to_nat (arm - 1)).
Proof.
  intros Hg Hu Hgt Hlen Hcounts Hok.
  exact (epsilonGreedy_exploit_first_maximal _ e g g' u binary64_ordered Hok
           Hg Hu Hgt Hlen Hcounts).
Qed.

(** Without rounding the same holds in every state with an arm. *)
Lemma exploit_selects_first_maximal_exact
    (RF : RandLib Qc) (e : epsilonGreedy) (g g' : Rand) (u : Qc) :
  eg_rand e = Some g → rand_Float64 g = (u, g') →
  f_gt u (eg_epsilon e) = true →
  (1 ≤ len (eg_values e) ≤ int_max)%Z → len (eg_counts e) = len (eg_values e) →
  ∃ arm e',
    epsilonGreedy_SelectArm e = Done (arm, e') ∧
    (1 ≤ arm ≤ len (eg_values e))%Z ∧
    first_maximal (eg_values e) (Z.to_nat (arm - 1)).
Proof.
  intros Hg Hu Hgt Hlen Hcounts.
  exact (epsilonGreedy_exploit_first_maximal _ e g g' u exact_ordered
           (λ _ _, I) Hg Hu Hgt Hlen Hcounts).
Qed.

(** Three arms with means 0, 0.5 and 0.5, and a generator whose next draw
    is 0.5, above epsilon = 0.25: arm 2 is selected. *)
Definition tie_example : epsilonGreedy (F := float) (RF := lcg) :=
  {| eg_counts := [0; 1; 1]%Z; eg_values := [0; 0.5; 0.5]%float;
     eg_epsilon := 0.25%float; eg_arms := 3;
     eg_rand := Some ((2 ^ 63)%Z : Rand (RandLib := lcg)) |}.

Lemma exploit_selects_first_maximal_witness :
  (rand_Float64 (RandLib := lcg) (2 ^ 63)%Z = (0.5%float, lcg_next (2 ^ 63)) ∧
   f_gt 0.5%float (eg_epsilon tie_example) = true ∧
   (∀ v, v ∈ eg_values tie_example → is_nan v = false)) ∧
  ∃ e', epsilonGreedy_SelectArm tie_example = Done (2%Z, e') ∧
        first_maximal (eg_values tie_example) 1.
Proof.
  assert (∀ v, v ∈ eg_values tie_example → is_nan v = false) as Hok.
  { intros v Hv. simpl in Hv.
    repeat (apply elem_of_cons in Hv as [->|Hv]; [reflexivity|]).
    inversion Hv. }
  split; [split; [reflexivity | split; [reflexivity | exact Hok]]|].
  destruct (exploit_selects_first_maximal lcg tie_example (2 ^ 63)%Z
              (lcg_next (2 ^ 63)) 0.5%float eq_refl eq_refl eq_refl
              ltac:(unfold len, int_max; simpl; lia) eq_refl Hok)
    as (arm & e' & Hsel & _ & Hmax).
  assert (arm = 2%Z) as ->.
  { assert (∃ e2, epsilonGreedy_SelectArm tie_example = Done (2%Z, e2))
      as [e2 Hrun] by (eexists; reflexivity).
    rewrite Hrun in Hsel. injection Hsel as <- _. reflexivity. }
  exists e'. split; [exact Hsel | exact Hmax].
Defined.

(** Arm 2 was rewarded with NaN and arm 3 with 1. *)
Definition nan_reward_example : exec (epsilonGreedy (F := float) (RF := lcg)) :=
  '(e, _) ← EpsilonGreedyNew (2 ^ 63) 3 0.25%float;
  e ← epsilonGreedy_Update e 2 nan;
  epsilonGreedy_Update e 3 1%float.

(** C8 as first stated fails on a state that holds a NaN: with the values
    [0, NaN, 1] the scan returns arm 3, whose value 1 is not above-or-equal
    to the NaN of arm 2, while arm 2, of lower index, has a value that no
    value exceeds. *)
Lemma exploit_skips_nan :
  ∃ e e' : epsilonGreedy,
    nan_reward_example = Done e ∧
    eg_values e = [0; nan; 1]%float ∧
    (∃ g, eg_rand e = Some g ∧ f_gt (rand_Float64 g).1 (eg_epsilon e) = true) ∧
    epsilonGreedy_SelectArm e = Done (3%Z, e') ∧
    ¬ first_maximal (eg_values e) 2 ∧
    (∀ w, w ∈ eg_values e → f_gt w nan = false).
Proof.
  eexists {| eg_counts := [0; 1; 1]%Z; eg_values := [0; nan; 1]%float;
             eg_epsilon := 0.25%float; eg_arms := 3;
             eg_rand := Some ((2 ^ 63)%Z : Rand (RandLib := lcg)) |}, _.
  split; [reflexivity|]. split; [reflexivity|].
  split; [exists (2 ^ 63)%Z; split; reflexivity|].
  split; [reflexivity|]. split.
  - intros (v & Hv & Hmax & _). injection Hv as <-.
    specialize (Hmax 1 nan eq_refl). discriminate Hmax.
  - intros w Hw. simpl in Hw.
    repeat (apply elem_of_cons in Hw as [->|Hw]; [reflexivity|]).
    inversion Hw.
Qed.

(* ================================================================= *)
(** ** Closed runs of the sampling loop and of the constructors *)

(** A fresh softmax bandit of two arms at temperature 1. *)
Definition softmax_fresh_example : softmax (F := float) (RF := lcg) :=
  {| sm_counts := [0; 0]%Z; sm_values := [0; 0]%float; sm_tau := 1%float;
     sm_arms := 2; sm_rand := Some (0%Z : Rand (RandLib := lcg)) |}.

(** The same bandit after the reward -5 on each arm. *)
Definition softmax_negative_example : softmax (F := float) (RF := lcg) :=
  {| sm_counts := [1; 1]%Z; sm_values := [-5; -5]%float; sm_tau := 1%float;
     sm_arms := 2; sm_rand := Some (0%Z : Rand (RandLib := lcg)) |}.

(** Both branches of the characterisation, with the Taylor series for
    [math.Exp]: the fresh bandit falls through to index 1, the bandit with
    negative means returns index 0 early. *)
Lemma sampling_loop_characterised_witness :
  softmax_SelectArm (MF := series_Exp) softmax_fresh_example
    = Done (1%Z, softmax_fresh_example) ∧
  softmax_SelectArm (MF := series_Exp) softmax_negative_example
    = Done (0%Z, softmax_negative_example).
Proof.
  split.
  - refine (proj2 (proj1 (proj1 sampling_loop_characterised float binary64
                            series_Exp lcg softmax_fresh_example) _)).
    intros k Hk. simpl in Hk.
    destruct k as [|[|[|k]]]; [lia | reflexivity | reflexivity | lia].
  - refine (proj2 (proj2 (proj1 sampling_loop_characterised float binary64
                            series_Exp lcg softmax_negative_example) 0 _ _ _)).
    + simpl. lia.
    + reflexivity.
    + intros k' Hk'. lia.
Defined.

Lemma constructors_validate_parameter_witness :
  ((0 ≤ 3)%Z ∧ f_ge 0.25%float f_zero = true ∧ f_le 0.25%float f_one = true) ∧
  EpsilonGreedyNew (RF := lcg) 7 3 0.25%float =
    Done ({| eg_counts := [0; 0; 0]%Z; eg_values := [0; 0; 0]%float;
             eg_epsilon := 0.25%float; eg_arms := 3;
             eg_rand := Some (7%Z : Rand (RandLib := lcg)) |}, None) ∧
  construction_error (EpsilonGreedyNew (RF := lcg) 7 3 1.5%float) ∧
  construction_error (SoftmaxNew (RF := lcg) 7 3 (-0.5)%float).
Proof.
  split; [split; [lia | split; reflexivity]|].
  split; [|split].
  - exact (proj1 (proj2 (proj2 (constructors_validate_parameter (RF := lcg)
                                  7 3 0.25%float)))
             ltac:(lia) eq_refl eq_refl).
  - apply (proj1 (constructors_validate_parameter (RF := lcg) 7 3 1.5%float)).
    intros [_ Hle]. discriminate Hle.
  - apply (proj1 (proj2 (constructors_validate_parameter (RF := lcg) 7 3 (-0.5)%float))).
    intros Hge. discriminate Hge.
Defined.

(* ================================================================= *)
(** ** What the 0-based result of softmax does to a trial *)

(** In every state of a constructed softmax bandit with an arm, what
    [SelectArm] returns is below [arms]: the ordinal [arms] is never
    returned, and 0 may be. *)
Lemma softmax_SelectArm_zero_based
    {F : Type} {AF : Arith F} {MF : MathLib F} {RF : RandLib F} {FF : FmtLib F}
    (s : softmax) :
  reachable softmax_new s → (1 ≤ sm_arms s)%Z →
  ∃ i, SelectArm s = Done (i, s) ∧ (0 ≤ i ≤ sm_arms s - 1)%Z.
Proof.
  intros (Harms & _ & Hv & _)%softmax_reachable_wf H1.
  destruct (softmax_SelectArm_spec s) as (i & Hsel & Hi).
  exists i. split; [exact Hsel|]. destruct Hi as [Hi | ->]; [lia|].
  rewrite Hv. unfold int_sub. rewrite wrap_id; [lia|].
  unfold is_int, int_min, int_max in *. lia.
Qed.

(** A trial of a one-variant experiment served by a fresh softmax bandit:
    [Select] passes the 0 of the bandit to [GetVariant], and panics. *)
Lemma Trial_Select_softmax_one_arm_panics
    (MF : MathLib float) (RF : RandLib float) (FF : FmtLib float)
    (now : Z) (variant : Variant) :
  ∃ s, SoftmaxNew now 1 1%float = Done (s, None) ∧
       Trial_Select {| trial_Bandit := s;
                       trial_Experiment := {| Name := "exp"; Variants := [variant] |} |}
       = Panics (IndexOutOfRange (-1) 1).
Proof.
  destruct (softmax_SelectArm_one_arm MF RF now) as (s & Hnew & _ & Hsel).
  exists s. split; [exact Hnew|].
  unfold Trial_Select. simpl. rewrite Hsel. reflexivity.
Qed.

(** When the bandit returns an ordinal below 0 or above the number of
    variants, [Select] returns the error of [GetVariant]. *)
Lemma Trial_Select_rejects {F B : Type} {BB : Bandit F B}
    (t : Trial B) (ordinal : Z) (b' : B) :
  SelectArm (trial_Bandit t) = Done (ordinal, b') →
  (ordinal < 0 ∨ len (Variants (trial_Experiment t)) < ordinal)%Z →
  Trial_Select t =
    Done (Variant_zero,
          Some (Errorf "ordinal %d not in [1,%d]"
                       [ArgInt ordinal; ArgInt (len (Variants (trial_Experiment t)))]),
          {| trial_Bandit := b'; trial_Experiment := trial_Experiment t |}).
Proof.
  intros Hsel Hord. unfold Trial_Select. rewrite Hsel. simpl.
  rewrite GetVariant_rejects by exact Hord. reflexivity.
Qed.

(* ================================================================= *)
(** * The rest of the package *)

(** ** The sort.Interface of Variants *)

(** [Variants.Len] *)
Definition Variants_Len (v : list Variant) : Z := len v.

(** [Variants.Swap]: [v[i], v[j] = v[j], v[i]]; both elements are read
    before either is written. *)
Definition Variants_Swap (v : list Variant) (i j : Z) : exec (list Variant) :=
  vj ← index v j;
  vi ← index v i;
  v ← store v i vj;
  store v j vi.

(** ** Trials *)

(** [err.Error()]: the message of an error of a library is stored, that of
    an error made by [fmt.Errorf] is what [fmt.Sprintf] renders. *)
Class ErrorLib : Type := {
  fmt_Sprintf : string → list fmt_arg → string
}.

Definition error_Error {EL : ErrorLib} (err : error) : string :=
  match err with
  | Errorf format args => fmt_Sprintf format args
  | LibError msg => msg
  end.

(** [Experiment{}] *)
Definition Experiment_zero : Experiment := {| Name := ""; Variants := [] |}.

(** [type BanditFactory func(arms int) (Bandit, error)].  A Go function may
    read and change what it has captured (a clock, a counter): [W] is that
    world, passed in and returned. *)
Definition BanditFactory (W B : Type) : Type := W → Z → exec (B * option error * W).

Section Trials.
Context {PL : ParserLib} {EL : ErrorLib} {W B : Type}.

(** The loop of [NewTrials] over the experiments, in the order the map
    yields them. *)
Fixpoint make_trials (f : BanditFactory W B) (experiments : list (string * Experiment))
    (trials : gmap string (Trial B)) (w : W)
  : exec (gmap string (Trial B) * option error * W) :=
  match experiments with
  | [] => mret (trials, None, w)
  | (name, experiment) :: experiments' =>
      '(b, err, w) ← f w (len (Variants experiment));
      match err with
      | Some err => mret (∅, Some (Errorf (error_Error err) []), w)
      | None =>
          make_trials f experiments'
            (<[name := {| trial_Bandit := b; trial_Experiment := experiment |}]> trials)
            w
      end
  end.

Definition NewTrials (experimentsTSV : string) (f : BanditFactory W B) (w : W)
  : exec (gmap string (Trial B) * option error * W) :=
  match ParseExperiments experimentsTSV with
  | (_, Some err) =>
      mret (∅, Some (Errorf "could not read experiments: %s" [ArgStr (error_Error err)]),
            w)
  | (experiments, None) => make_trials f (map_range experiments) ∅ w
  end.

(** The two loops of [Trials.GetVariant]: the first variant with the tag in
    the first trial, in the order of the map, that has one. *)
Fixpoint find_tagged (tag : string) (trials : list (string * Trial B))
  : option (Experiment * Variant) :=
  match trials with
  | [] => None
  | (_, trial) :: trials' =>
      match List.find (λ variant, bool_decide (Tag variant = tag))
                      (Variants (trial_Experiment trial)) with
      | Some variant => Some (trial_Experiment trial, variant)
      | None => find_tagged tag trials'
      end
  end.

Definition Trials_GetVariant (t : gmap string (Trial B)) (tag : string)
  : Experiment * Variant * option error :=
  match find_tagged tag (map_range t) with
  | Some (experiment, variant) => (experiment, variant, None)
  | None =>
      (Experiment_zero, Variant_zero,
       Some (Errorf "could not find variant '%s'" [ArgStr tag]))
  end.

End Trials.

(* ================================================================= *)
(** * Further properties *)

(** ** The policies at their bounds *)

Lemma lcg_Intn_in_range {F : Type} {AF : Arith F} : Intn_in_range (RF := lcg).
Proof. intros g n Hn. simpl. apply Z.mod_pos_bound. exact Hn. Qed.

(** The state of [epsilonGreedy_example], and that it is one a constructed
    bandit goes through. *)
Definition epsilonGreedy_example_state : epsilonGreedy (F := float) (RF := lcg) :=
  {| eg_counts := [0; 0; 2]%Z; eg_values := [0; 0; 0.5]%float;
     eg_epsilon := 0.25%float; eg_arms := 3;
     eg_rand := Some (17628806926561717905%Z : Rand (RandLib := lcg)) |}.

Lemma epsilonGreedy_example_reachable :
  reachable (BB := epsilonGreedy_Bandit (FF := fmt_2f)) epsilonGreedy_new
    epsilonGreedy_example_state.
Proof.
  eapply reach_Update with (arm := 3%Z) (reward := 1%float);
    [eapply reach_SelectArm with (arm := 3%Z);
       [apply reach_new; exists 7%Z, 3%Z, 0.25%float;
        split; [unfold is_int, int_min, int_max; lia | reflexivity]
       | reflexivity]
    | unfold is_int, int_min, int_max; lia
    | reflexivity].
Qed.

Lemma epsilonGreedy_example_wf : eg_wf epsilonGreedy_example_state.
Proof.
  unfold eg_wf, len, int_max. simpl. repeat split; try lia. eauto.
Qed.

Lemma epsilonGreedy_SelectArm_in_range_witness :
  ∃ arm e',
    SelectArm (Bandit := epsilonGreedy_Bandit (FF := fmt_2f))
      epsilonGreedy_example_state = Done (arm, e') ∧
    (1 ≤ arm ≤ 3)%Z.
Proof.
  exact (epsilonGreedy_SelectArm_in_range epsilonGreedy_example_state
           lcg_Intn_in_range epsilonGreedy_example_reachable ltac:(simpl; lia)).
Defined.

Lemma epsilonGreedy_cycle_counts_twice_witness :
  ∃ arm e1 e2 c,
    epsilonGreedy_SelectArm epsilonGreedy_example_state = Done (arm, e1) ∧
    epsilonGreedy_Update e1 arm 1%float = Done e2 ∧
    eg_counts epsilonGreedy_example_state !! Z.to_nat (arm - 1) = Some c ∧
    eg_counts e1 !! Z.to_nat (arm - 1) = Some (int_add c 1) ∧
    eg_counts e2 !! Z.to_nat (arm - 1) = Some (int_add (int_add c 1) 1).
Proof.
  exact (epsilonGreedy_cycle_counts_twice epsilonGreedy_example_state 1%float
           lcg_Intn_in_range epsilonGreedy_example_wf ltac:(simpl; lia)).
Defined.

(** A fresh softmax bandit of two arms is a state of a constructed bandit. *)
Lemma softmax_fresh_example_reachable :
  reachable (BB := softmax_Bandit (MF := series_Exp) (FF := fmt_2f)) softmax_new
    softmax_fresh_example.
Proof.
  apply reach_new. exists 0%Z, 2%Z, 1%float.
  split; [unfold is_int, int_min, int_max; lia | reflexivity].
Qed.

Lemma softmax_SelectArm_zero_based_witness :
  ∃ i, SelectArm (Bandit := softmax_Bandit (MF := series_Exp) (FF := fmt_2f))
         softmax_fresh_example = Done (i, softmax_fresh_example) ∧
       (0 ≤ i ≤ 2 - 1)%Z.
Proof.
  exact (softmax_SelectArm_zero_based softmax_fresh_example
           softmax_fresh_example_reachable ltac:(simpl; lia)).
Defined.

Lemma index_panics {A : Type} (s : list A) (i : Z) :
  (i < 0 ∨ len s ≤ i)%Z → index s i = Panics (IndexOutOfRange i (length s)).
Proof.
  intros Hi. unfold index. destruct (decide (0 ≤ i)%Z) as [H0|H0]; [|reflexivity].
  rewrite (lookup_ge_None_2 s (Z.to_nat i)); [reflexivity|]. unfold len in Hi. lia.
Qed.

(** An ordinal that is no arm's, less one, is no index of the arms: also
    at the least [int], where the subtraction wraps. *)
Lemma ordinal_out_of_range (arm n : Z) :
  is_int arm → (0 ≤ n ≤ int_max)%Z → (arm < 1 ∨ n < arm)%Z →
  (int_sub arm 1 < 0 ∨ n ≤ int_sub arm 1)%Z.
Proof.
  unfold is_int, int_min, int_max, int_sub, wrap. intros Harm Hn Hout.
  destruct (decide (arm = - 2 ^ 63)%Z) as [->|Hne].
  - right. change ((- 2 ^ 63 - 1 + 2 ^ 63) `mod` 2 ^ 64 - 2 ^ 63)%Z
      with (2 ^ 63 - 1)%Z. lia.
  - rewrite Z.mod_small by lia. lia.
Qed.

Section UpdateFacts.
Context {F : Type} {AF : Arith F} {RF : RandLib F}.

Lemma epsilonGreedy_Update_eq (e : epsilonGreedy) (arm : Z) (reward : F) (c : Z) (v : F) :
  eg_wf e → (1 ≤ arm ≤ eg_arms e)%Z →
  eg_counts e !! Z.to_nat (arm - 1) = Some c →
  eg_values e !! Z.to_nat (arm - 1) = Some v →
  epsilonGreedy_Update e arm reward =
    Done {| eg_counts := <[Z.to_nat (arm - 1) := int_add c 1]> (eg_counts e);
            eg_values := <[Z.to_nat (arm - 1) :=
                             running_average v (int_add c 1) reward]> (eg_values e);
            eg_epsilon := eg_epsilon e; eg_arms := eg_arms e;
            eg_rand := eg_rand e |}.
Proof.
  intros Hwf Harm Hc Hv.
  destruct (epsilonGreedy_Update_spec e arm reward Hwf Harm)
    as (c' & v' & e' & Hc' & Hv' & -> & Hcs & Hvs & Heps & Harms & Hrand).
  assert (c' = c) as -> by congruence. assert (v' = v) as -> by congruence.
  destruct e'. simpl in *. subst. reflexivity.
Qed.

Lemma softmax_Update_eq (s : softmax) (arm : Z) (reward : F) (c : Z) (v : F) :
  sm_wf s → (1 ≤ arm ≤ sm_arms s)%Z →
  sm_counts s !! Z.to_nat (arm - 1) = Some c →
  sm_values s !! Z.to_nat (arm - 1) = Some v →
  softmax_Update s arm reward =
    Done {| sm_counts := <[Z.to_nat (arm - 1) := int_add c 1]> (sm_counts s);
            sm_values := <[Z.to_nat (arm - 1) :=
                             running_average v (int_add c 1) reward]> (sm_values s);
            sm_tau := sm_tau s; sm_arms := sm_arms s; sm_rand := sm_rand s |}.
Proof.
  intros Hwf Harm Hc Hv.
  destruct (softmax_Update_spec s arm reward Hwf Harm)
    as (c' & v' & s' & Hc' & Hv' & -> & Hcs & Hvs & Hτ & Harms & Hrand).
  assert (c' = c) as -> by congruence. assert (v' = v) as -> by congruence.
  destruct s'. simpl in *. subst. reflexivity.
Qed.

(** [Update] with an ordinal that is no arm's panics on its first index
    expression, [counts[arm-1]], and so changes nothing. *)
Theorem Update_out_of_range_panics :
  (∀ (e : epsilonGreedy) (arm : Z) (reward : F),
     eg_wf e → is_int arm → (arm < 1 ∨ eg_arms e < arm)%Z →
     epsilonGreedy_Update e arm reward
     = Panics (IndexOutOfRange (int_sub arm 1) (length (eg_counts e)))) ∧
  (∀ (s : softmax) (arm : Z) (reward : F),
     sm_wf s → is_int arm → (arm < 1 ∨ sm_arms s < arm)%Z →
     softmax_Update s arm reward
     = Panics (IndexOutOfRange (int_sub arm 1) (length (sm_counts s)))).
Proof.
  split.
  - intros e arm reward (Harms & Hc & _) Hint Hout. unfold epsilonGreedy_Update.
    rewrite (index_panics (eg_counts e)); [reflexivity|]. rewrite Hc.
    apply ordinal_out_of_range; assumption.
  - intros s arm reward (Harms & Hc & _) Hint Hout. unfold softmax_Update.
    rewrite (index_panics (sm_counts s)); [reflexivity|]. rewrite Hc.
    apply ordinal_out_of_range; assumption.
Qed.

(** Reports for two different arms can be made in either order: the bandit
    ends in the same state. *)
Theorem Update_commutes :
  (∀ (e : epsilonGreedy) (a b : Z) (r r' : F),
     eg_wf e → (1 ≤ a ≤ eg_arms e)%Z → (1 ≤ b ≤ eg_arms e)%Z → a ≠ b →
     (e1 ← epsilonGreedy_Update e a r; epsilonGreedy_Update e1 b r')
     = (e2 ← epsilonGreedy_Update e b r'; epsilonGreedy_Update e2 a r)) ∧
  (∀ (s : softmax) (a b : Z) (r r' : F),
     sm_wf s → (1 ≤ a ≤ sm_arms s)%Z → (1 ≤ b ≤ sm_arms s)%Z → a ≠ b →
     (s1 ← softmax_Update s a r; softmax_Update s1 b r')
     = (s2 ← softmax_Update s b r'; softmax_Update s2 a r)).
Proof.
  split.
  - intros e a b r r' Hwf Ha Hb Hab.
    pose proof Hwf as (Harms & Hlc & Hlv & Hg). unfold len in Hlc, Hlv.
    destruct (lookup_lt_is_Some_2 (eg_counts e) (Z.to_nat (a - 1))) as [ca Hca]; [lia|].
    destruct (lookup_lt_is_Some_2 (eg_counts e) (Z.to_nat (b - 1))) as [cb Hcb]; [lia|].
    destruct (lookup_lt_is_Some_2 (eg_values e) (Z.to_nat (a - 1))) as [va Hva]; [lia|].
    destruct (lookup_lt_is_Some_2 (eg_values e) (Z.to_nat (b - 1))) as [vb Hvb]; [lia|].
    assert (Z.to_nat (a - 1) ≠ Z.to_nat (b - 1)) as Hne by lia.
    rewrite (epsilonGreedy_Update_eq e a r ca va Hwf Ha Hca Hva).
    rewrite (epsilonGreedy_Update_eq e b r' cb vb Hwf Hb Hcb Hvb).
    cbn [mbind exec_bind].
    erewrite (epsilonGreedy_Update_eq _ b r' cb vb);
      [| eapply epsilonGreedy_Update_wf; [exact Hwf|];
         exact (epsilonGreedy_Update_eq e a r ca va Hwf Ha Hca Hva)
       | exact Hb
       | cbn [eg_counts]; rewrite list_lookup_insert_ne by exact Hne; exact Hcb
       | cbn [eg_values]; rewrite list_lookup_insert_ne by exact Hne; exact Hvb].
    erewrite (epsilonGreedy_Update_eq _ a r ca va);
      [| eapply epsilonGreedy_Update_wf; [exact Hwf|];
         exact (epsilonGreedy_Update_eq e b r' cb vb Hwf Hb Hcb Hvb)
       | exact Ha
       | cbn [eg_counts]; rewrite list_lookup_insert_ne by (symmetry; exact Hne);
         exact Hca
       | cbn [eg_values]; rewrite list_lookup_insert_ne by (symmetry; exact Hne);
         exact Hva].
    cbn [eg_counts eg_values eg_epsilon eg_arms eg_rand].
    rewrite (list_insert_insert_ne (eg_counts e) (Z.to_nat (b - 1)) (Z.to_nat (a - 1))) by (symmetry; exact Hne).
    rewrite (list_insert_insert_ne (eg_values e) (Z.to_nat (b - 1)) (Z.to_nat (a - 1))) by (symmetry; exact Hne).
    reflexivity.
  - intros s a b r r' Hwf Ha Hb Hab.
    pose proof Hwf as (Harms & Hlc & Hlv & Hg). unfold len in Hlc, Hlv.
    destruct (lookup_lt_is_Some_2 (sm_counts s) (Z.to_nat (a - 1))) as [ca Hca]; [lia|].
    destruct (lookup_lt_is_Some_2 (sm_counts s) (Z.to_nat (b - 1))) as [cb Hcb]; [lia|].
    destruct (lookup_lt_is_Some_2 (sm_values s) (Z.to_nat (a - 1))) as [va Hva]; [lia|].
    destruct (lookup_lt_is_Some_2 (sm_values s) (Z.to_nat (b - 1))) as [vb Hvb]; [lia|].
    assert (Z.to_nat (a - 1) ≠ Z.to_nat (b - 1)) as Hne by lia.
    rewrite (softmax_Update_eq s a r ca va Hwf Ha Hca Hva).
    rewrite (softmax_Update_eq s b r' cb vb Hwf Hb Hcb Hvb).
    cbn [mbind exec_bind].
    erewrite (softmax_Update_eq _ b r' cb vb);
      [| eapply softmax_Update_wf; [exact Hwf|];
         exact (softmax_Update_eq s a r ca va Hwf Ha Hca Hva)
       | exact Hb
       | cbn [sm_counts]; rewrite list_lookup_insert_ne by exact Hne; exact Hcb
       | cbn [sm_values]; rewrite list_lookup_insert_ne by exact Hne; exact Hvb].
    erewrite (softmax_Update_eq _ a r ca va);
      [| eapply softmax_Update_wf; [exact Hwf|];
         exact (softmax_Update_eq s b r' cb vb Hwf Hb Hcb Hvb)
       | exact Ha
       | cbn [sm_counts]; rewrite list_lookup_insert_ne by (symmetry; exact Hne);
         exact Hca
       | cbn [sm_values]; rewrite list_lookup_insert_ne by (symmetry; exact Hne);
         exact Hva].
    cbn [sm_counts sm_values sm_tau sm_arms sm_rand].
    rewrite (list_insert_insert_ne (sm_counts s) (Z.to_nat (b - 1)) (Z.to_nat (a - 1))) by (symmetry; exact Hne).
    rewrite (list_insert_insert_ne (sm_values s) (Z.to_nat (b - 1)) (Z.to_nat (a - 1))) by (symmetry; exact Hne).
    reflexivity.
Qed.

End UpdateFacts.

Lemma Update_out_of_range_panics_witness :
  (eg_wf epsilonGreedy_example_state ∧ is_int 0 ∧ is_int 4) ∧
  epsilonGreedy_Update epsilonGreedy_example_state 0 1%float
    = Panics (IndexOutOfRange (-1) 3) ∧
  epsilonGreedy_Update epsilonGreedy_example_state 4 1%float
    = Panics (IndexOutOfRange 3 3).
Proof.
  assert (is_int 0) as H0 by (unfold is_int, int_min, int_max; lia).
  assert (is_int 4) as H4 by (unfold is_int, int_min, int_max; lia).
  split; [split; [exact epsilonGreedy_example_wf | split; assumption]|].
  split.
  - exact (proj1 Update_out_of_range_panics epsilonGreedy_example_state 0%Z 1%float
             epsilonGreedy_example_wf H0 ltac:(left; lia)).
  - exact (proj1 Update_out_of_range_panics epsilonGreedy_example_state 4%Z 1%float
             epsilonGreedy_example_wf H4 ltac:(right; simpl; lia)).
Defined.

Lemma Update_commutes_witness :
  (e1 ← epsilonGreedy_Update epsilonGreedy_example_state 1 2%float;
   epsilonGreedy_Update e1 3 4%float)
  = (e2 ← epsilonGreedy_Update epsilonGreedy_example_state 3 4%float;
     epsilonGreedy_Update e2 1 2%float).
Proof.
  exact (proj1 Update_commutes epsilonGreedy_example_state 1%Z 3%Z 2%float 4%float
           epsilonGreedy_example_wf ltac:(simpl; lia) ltac:(simpl; lia) ltac:(lia)).
Defined.

(** ** [Reset] and the constructors *)

Section ResetFacts.
Context {F : Type} {AF : Arith F} {MF : MathLib F} {RF : RandLib F}
        {FF : FmtLib F}.

(** The parameter of a constructed bandit stays in its domain. *)
Lemma epsilonGreedy_reachable_epsilon (e : epsilonGreedy) :
  reachable epsilonGreedy_new e →
  f_ge (eg_epsilon e) f_zero = true ∧ f_le (eg_epsilon e) f_one = true.
Proof.
  induction 1 as [e (now & arms & eps & Harms & Hnew)
                 | e arm e' Hreach IH Hsel
                 | e arm reward e' Hreach IH Hint Hupd
                 | now e e' Hreach IH Hreset].
  - unfold EpsilonGreedyNew in Hnew.
    destruct (f_ge eps f_zero) eqn:Hge, (f_le eps f_one) eqn:Hle;
      simpl in Hnew; try discriminate.
    exec_inv Hnew. injection Hnew as <-. simpl. auto.
  - simpl in Hsel. unfold epsilonGreedy_SelectArm in Hsel.
    apply bind_Done_inv in Hsel as (g & _ & Hsel).
    destruct (rand_Float64 g) as [u g1].
    apply bind_Done_inv in Hsel as ([a g2] & _ & Hsel).
    exec_inv Hsel. injection Hsel as _ <-. exact IH.
  - simpl in Hupd. unfold epsilonGreedy_Update in Hupd.
    exec_inv Hupd. injection Hupd as <-. exact IH.
  - simpl in Hreset. unfold epsilonGreedy_Reset in Hreset.
    exec_inv Hreset. injection Hreset as <-. exact IH.
Qed.

Lemma softmax_reachable_tau (s : softmax) :
  reachable softmax_new s → f_ge (sm_tau s) f_zero = true.
Proof.
  induction 1 as [s (now & arms & τ & Harms & Hnew)
                 | s arm s' Hreach IH Hsel
                 | s arm reward s' Hreach IH Hint Hupd
                 | now s s' Hreach IH Hreset].
  - unfold SoftmaxNew in Hnew.
    destruct (f_ge τ f_zero) eqn:Hge; simpl in Hnew; try discriminate.
    exec_inv Hnew. injection Hnew as <-. simpl. auto.
  - simpl in Hsel. destruct (softmax_SelectArm_spec s) as (i & Hi & _).
    rewrite Hi in Hsel. injection Hsel as _ <-. exact IH.
  - simpl in Hupd. unfold softmax_Update in Hupd.
    exec_inv Hupd. injection Hupd as <-. exact IH.
  - simpl in Hreset. unfold softmax_Reset in Hreset.
    exec_inv Hreset. injection Hreset as <-. exact IH.
Qed.

(** "Reset returns the bandit to its newly constructed state": in every
    state a constructed bandit goes through, [Reset] returns exactly what the
    constructor returns for the bandit's arms and parameter at that time. *)
Theorem Reset_is_construction :
  (∀ (e : epsilonGreedy) (now : Z),
     reachable epsilonGreedy_new e →
     ∃ e', Reset now e = Done e' ∧
           EpsilonGreedyNew now (eg_arms e) (eg_epsilon e) = Done (e', None)) ∧
  (∀ (s : softmax) (now : Z),
     reachable softmax_new s →
     ∃ s', Reset now s = Done s' ∧
           SoftmaxNew now (sm_arms s) (sm_tau s) = Done (s', None)).
Proof.
  split.
  - intros e now Hreach.
    destruct (epsilonGreedy_reachable_epsilon e Hreach) as [Hge Hle].
    destruct (epsilonGreedy_reachable_wf e Hreach) as (Harms & _).
    eexists. split; [apply epsilonGreedy_Reset_spec; lia|].
    unfold EpsilonGreedyNew. rewrite Hge, Hle. simpl.
    rewrite !make_Done by lia. reflexivity.
  - intros s now Hreach.
    pose proof (softmax_reachable_tau s Hreach) as Hge.
    destruct (softmax_reachable_wf s Hreach) as (Harms & _).
    eexists. split; [apply softmax_Reset_spec; lia|].
    unfold SoftmaxNew. rewrite Hge. simpl.
    rewrite !make_Done by lia. reflexivity.
Qed.

End ResetFacts.

Lemma Reset_is_construction_witness :
  ∃ e', epsilonGreedy_Reset 11 epsilonGreedy_example_state = Done e' ∧
        EpsilonGreedyNew 11 3 0.25%float = Done (e', None).
Proof.
  exact (proj1 (Reset_is_construction (MF := series_Exp) (FF := fmt_2f))
           epsilonGreedy_example_state 11%Z epsilonGreedy_example_reachable).
Defined.

(** ** Arm counts that are not positive, and the bandit of a failed
    construction *)

Section ArmBounds.
Context {F : Type} {AF : Arith F} {MF : MathLib F} {RF : RandLib F}.

(** With a parameter in the domain, a negative number of arms makes both
    constructors panic in [make]. *)
Theorem constructors_negative_arms_panic (now arms : Z) (x : F) :
  (arms < 0)%Z → f_ge x f_zero = true →
  (f_le x f_one = true →
   EpsilonGreedyNew now arms x = Panics (MakesliceLenOutOfRange arms)) ∧
  SoftmaxNew now arms x = Panics (MakesliceLenOutOfRange arms).
Proof.
  intros Harms Hge. unfold EpsilonGreedyNew, SoftmaxNew, make. rewrite Hge.
  split.
  - intros ->. simpl. destruct (decide (0 ≤ arms)%Z); [lia | reflexivity].
  - simpl. destruct (decide (0 ≤ arms)%Z); [lia | reflexivity].
Qed.

(** Zero arms are accepted by both constructors.  On the bandit they return,
    [epsilonGreedy.SelectArm] panics whatever the draw (at [counts[0]] when it
    exploits, in [Intn(0)] when it explores), [softmax.SelectArm] returns -1,
    and [Update] panics for every ordinal. *)
Theorem zero_arms_bandits (now : Z) (x : F) :
  f_ge x f_zero = true →
  (f_le x f_one = true →
   ∃ e, EpsilonGreedyNew now 0 x = Done (e, None) ∧
        (epsilonGreedy_SelectArm e = Panics (IndexOutOfRange 0 0) ∨
         epsilonGreedy_SelectArm e = Panics (IntnInvalidArgument 0)) ∧
        ∀ arm reward, is_int arm →
          epsilonGreedy_Update e arm reward
          = Panics (IndexOutOfRange (int_sub arm 1) 0)) ∧
  (∃ s, SoftmaxNew now 0 x = Done (s, None) ∧
        softmax_SelectArm s = Done ((-1)%Z, s) ∧
        ∀ arm reward, is_int arm →
          softmax_Update s arm reward
          = Panics (IndexOutOfRange (int_sub arm 1) 0)).
Proof.
  intros Hge. split.
  - intros Hle. eexists. split.
    { unfold EpsilonGreedyNew. rewrite Hge, Hle. reflexivity. }
    split.
    + unfold epsilonGreedy_SelectArm. simpl.
      destruct (rand_Float64 (rand_New now)) as [u g].
      destruct (f_gt u x); [left | right]; reflexivity.
    + intros arm reward Hint. unfold epsilonGreedy_Update. simpl.
      rewrite (index_panics (A := Z) []); [reflexivity|].
      apply (ordinal_out_of_range arm 0 Hint); unfold int_max, len; simpl; lia.
  - eexists. split.
    { unfold SoftmaxNew. rewrite Hge. reflexivity. }
    split; [reflexivity|].
    intros arm reward Hint. unfold softmax_Update. simpl.
    rewrite (index_panics (A := Z) []); [reflexivity|].
    apply (ordinal_out_of_range arm 0 Hint); unfold int_max, len; simpl; lia.
Qed.

(** What a constructor returns beside its error is the zero value of the
    struct.  A caller that ignores the error and goes on gets a panic from
    [epsilonGreedy.SelectArm] (the generator is nil), -1 from
    [softmax.SelectArm], and a panic from [Update] for every ordinal. *)
Theorem failed_construction_bandit :
  (∀ (now arms : Z) (x : F),
     construction_error (EpsilonGreedyNew now arms x) →
     ∃ err, EpsilonGreedyNew now arms x = Done (epsilonGreedy_zero, Some err)) ∧
  (∀ (now arms : Z) (x : F),
     construction_error (SoftmaxNew now arms x) →
     ∃ err, SoftmaxNew now arms x = Done (softmax_zero, Some err)) ∧
  epsilonGreedy_SelectArm epsilonGreedy_zero = Panics NilPointerDereference ∧
  softmax_SelectArm softmax_zero = Done ((-1)%Z, softmax_zero) ∧
  (∀ arm reward, is_int arm →
     epsilonGreedy_Update epsilonGreedy_zero arm reward
     = Panics (IndexOutOfRange (int_sub arm 1) 0)) ∧
  (∀ arm reward, is_int arm →
     softmax_Update softmax_zero arm reward
     = Panics (IndexOutOfRange (int_sub arm 1) 0)).
Proof.
  repeat split.
  - intros now arms x (b & err & Hnew). unfold EpsilonGreedyNew in *.
    destruct (negb _); [eauto|]. exec_inv Hnew. discriminate.
  - intros now arms x (b & err & Hnew). unfold SoftmaxNew in *.
    destruct (negb _); [eauto|]. exec_inv Hnew. discriminate.
  - intros arm reward Hint. unfold epsilonGreedy_Update. simpl.
    rewrite (index_panics (A := Z) []); [reflexivity|].
    apply (ordinal_out_of_range arm 0 Hint); unfold int_max, len; simpl; lia.
  - intros arm reward Hint. unfold softmax_Update. simpl.
    rewrite (index_panics (A := Z) []); [reflexivity|].
    apply (ordinal_out_of_range arm 0 Hint); unfold int_max, len; simpl; lia.
Qed.

End ArmBounds.

Lemma constructors_negative_arms_panic_witness :
  ((-1 < 0)%Z ∧ f_ge 0.25%float f_zero = true ∧ f_le 0.25%float f_one = true) ∧
  EpsilonGreedyNew (RF := lcg) 7 (-1) 0.25%float = Panics (MakesliceLenOutOfRange (-1)) ∧
  SoftmaxNew (RF := lcg) 7 (-1) 0.25%float = Panics (MakesliceLenOutOfRange (-1)).
Proof.
  split; [split; [lia | split; reflexivity]|].
  assert (f_ge (F := float) 0.25%float f_zero = true) as Hge by reflexivity.
  destruct (constructors_negative_arms_panic (RF := lcg) 7 (-1) 0.25%float
              ltac:(lia) Hge) as [Heg Hsm].
  split; [exact (Heg eq_refl) | exact Hsm].
Defined.

Lemma zero_arms_bandits_witness :
  (f_ge 0.25%float f_zero = true ∧ f_le 0.25%float f_one = true) ∧
  (∃ e, EpsilonGreedyNew (RF := lcg) 7 0 0.25%float = Done (e, None) ∧
        ∃ p, epsilonGreedy_SelectArm e = Panics p) ∧
  (∃ s, SoftmaxNew (RF := lcg) 7 0 0.25%float = Done (s, None) ∧
        softmax_SelectArm (MF := series_Exp) s = Done ((-1)%Z, s)).
Proof.
  split; [split; reflexivity|].
  assert (f_ge (F := float) 0.25%float f_zero = true) as Hge by reflexivity.
  destruct (zero_arms_bandits (MF := series_Exp) (RF := lcg) 7 0.25%float Hge)
    as [Heg (s & Hs & Hsel & _)].
  destruct (Heg eq_refl) as (e & He & Hpanic & _).
  split.
  - exists e. split; [exact He|]. destruct Hpanic; eauto.
  - exists s. split; assumption.
Defined.

Lemma failed_construction_bandit_witness :
  construction_error (EpsilonGreedyNew (RF := lcg) 7 3 1.5%float) ∧
  EpsilonGreedyNew (RF := lcg) 7 3 1.5%float
    = Done (epsilonGreedy_zero, Some (Errorf "epsilon not in [0, 1]" [])) ∧
  epsilonGreedy_SelectArm (F := float) (RF := lcg) epsilonGreedy_zero
    = Panics NilPointerDereference.
Proof.
  assert (construction_error (EpsilonGreedyNew (RF := lcg) 7 3 1.5%float)) as Herr
    by (eexists _, _; reflexivity).
  split; [exact Herr|].
  destruct (failed_construction_bandit (F := float) (MF := series_Exp) (RF := lcg))
    as (Heg & _ & Hsel & _).
  destruct (Heg 7%Z 3%Z 1.5%float Herr) as [err Hnew].
  split; [reflexivity | exact Hsel].
Defined.

(* ================================================================= *)
(** ** Looking up variants *)

(** [List.find] returns the first element that passes the test. *)
Lemma find_first {A : Type} (f : A → bool) (l : list A) (x : A) :
  List.find f l = Some x ↔
  ∃ k, l !! k = Some x ∧ f x = true ∧
       ∀ j y, j < k → l !! j = Some y → f y = false.
Proof.
  induction l as [|a l IH]; simpl.
  - split; [discriminate|]. intros (k & Hk & _). destruct k; discriminate.
  - destruct (f a) eqn:Hfa.
    + split.
      * intros [= ->]. exists 0. split; [reflexivity|]. split; [exact Hfa|].
        intros j y Hj. lia.
      * intros ([|k] & Hk & Hfx & Hfirst).
        -- injection Hk as ->. reflexivity.
        -- specialize (Hfirst 0 a ltac:(lia) eq_refl). congruence.
    + rewrite IH. split.
      * intros (k & Hk & Hfx & Hfirst). exists (S k).
        split; [exact Hk|]. split; [exact Hfx|].
        intros [|j] y Hj Hy; [injection Hy as <-; exact Hfa|].
        apply (Hfirst j y); [lia | exact Hy].
      * intros ([|k] & Hk & Hfx & Hfirst).
        -- injection Hk as ->. congruence.
        -- exists k. split; [exact Hk|]. split; [exact Hfx|].
           intros j y Hj Hy. apply (Hfirst (S j) y); [lia | exact Hy].
Qed.

Lemma find_none_iff {A : Type} (f : A → bool) (l : list A) :
  List.find f l = None ↔ ∀ y, y ∈ l → f y = false.
Proof.
  induction l as [|a l IH]; simpl.
  - split; [|reflexivity]. intros _ y Hy. inversion Hy.
  - destruct (f a) eqn:Hfa.
    + split; [discriminate|]. intros Hall. rewrite (Hall a) in Hfa by left.
      discriminate.
    + rewrite IH. split.
      * intros Hall y [->|Hy]%elem_of_cons; auto.
      * intros Hall y Hy. apply Hall. right. exact Hy.
Qed.

Lemma GetVariant_zero_panics_at (e : Experiment) :
  GetVariant e 0 = Panics (IndexOutOfRange (-1) (length (Variants e))).
Proof.
  unfold GetVariant.
  rewrite bool_decide_eq_false_2 by lia.
  rewrite bool_decide_eq_false_2 by (unfold len; lia).
  reflexivity.
Qed.

(** [GetVariant] by cases of the ordinal: a variant for the ordinals of
    [[1, len]], the error below 0 and above [len], and a panic at 0. *)
Theorem GetVariant_cases (e : Experiment) (ordinal : Z) :
  (len (Variants e) ≤ int_max)%Z → is_int ordinal →
  (∀ v, GetVariant e ordinal = Done (v, None) ↔
        (1 ≤ ordinal ≤ len (Variants e))%Z ∧
        Variants e !! Z.to_nat (ordinal - 1) = Some v) ∧
  ((∃ v err, GetVariant e ordinal = Done (v, Some err)) ↔
   (ordinal < 0 ∨ len (Variants e) < ordinal)%Z) ∧
  ((∃ p, GetVariant e ordinal = Panics p) ↔ ordinal = 0%Z).
Proof.
  intros Hlen Hint.
  destruct (decide (ordinal < 0 ∨ len (Variants e) < ordinal)%Z) as [Hout|Hin].
  - rewrite (GetVariant_rejects e ordinal Hout).
    split; [|split].
    + intros v. split; [discriminate|]. intros [Hrange _]. lia.
    + split; [intros _; exact Hout | intros _; eauto].
    + split.
      * intros [p Hp]. discriminate.
      * intros ->. pose proof (len_nonneg (Variants e)). lia.
  - destruct (decide (ordinal = 0%Z)) as [->|Hne].
    + rewrite GetVariant_zero_panics_at.
      split; [|split].
      * intros v. split; [discriminate|]. intros [Hrange _]. lia.
      * split; [|intros Hout; contradiction].
        intros (v & err & Hv). discriminate.
      * split; [reflexivity | intros _; eauto].
    + destruct (GetVariant_in_range e ordinal ltac:(lia) Hlen) as (v & Hv & ->).
      split; [|split].
      * intros v'. split.
        -- intros [= <-]. split; [lia | exact Hv].
        -- intros [_ Hv']. congruence.
      * split; [|intros Hout; contradiction].
        intros (v' & err & H'). discriminate.
      * split; [|intros ->; contradiction].
        intros [p Hp]. discriminate.
Qed.

(** Three variants; the tag of the first is also the tag of the third. *)
Definition shapes : Experiment :=
  {| Name := "shape";
     Variants := [{| Ordinal := 1; URL := "/circle"; Tag := "shape:round" |};
                  {| Ordinal := 2; URL := "/square"; Tag := "shape:square" |};
                  {| Ordinal := 3; URL := "/disc"; Tag := "shape:round" |}] |}.

Lemma GetVariant_cases_witness :
  GetVariant shapes 2
    = Done ({| Ordinal := 2; URL := "/square"; Tag := "shape:square" |}, None) ∧
  (∃ v err, GetVariant shapes 4 = Done (v, Some err)) ∧
  (∃ p, GetVariant shapes 0 = Panics p).
Proof.
  assert (len (Variants shapes) ≤ int_max)%Z as Hlen by (vm_compute; discriminate).
  assert (∀ z, -5 ≤ z ≤ 5 → is_int z)%Z as Hint
    by (unfold is_int, int_min, int_max; lia).
  split; [|split].
  - apply (GetVariant_cases shapes 2 Hlen (Hint 2%Z ltac:(lia))).
    split; [unfold len; simpl; lia | reflexivity].
  - apply (GetVariant_cases shapes 4 Hlen (Hint 4%Z ltac:(lia))).
    right. unfold len. simpl. lia.
  - apply (GetVariant_cases shapes 0 Hlen (Hint 0%Z ltac:(lia))). reflexivity.
Defined.

(** [GetTaggedVariant] returns the first variant, in the order of the
    slice, that carries the tag, and the error exactly when none does. *)
Theorem GetTaggedVariant_first (e : Experiment) (tag : string) :
  (∀ v, GetTaggedVariant e tag = (v, None) ↔
        ∃ k : nat, Variants e !! k = Some v ∧ Tag v = tag ∧
                   ∀ (j : nat) (w : Variant),
                     j < k → Variants e !! j = Some w → Tag w ≠ tag) ∧
  ((∃ v err, GetTaggedVariant e tag = (v, Some err)) ↔
   ∀ v, v ∈ Variants e → Tag v ≠ tag) ∧
  (∀ v err, GetTaggedVariant e tag = (v, Some err) → v = Variant_zero).
Proof.
  unfold GetTaggedVariant.
  pose proof (find_first (λ variant, bool_decide (Tag variant = tag)) (Variants e))
    as Hfirst.
  pose proof (find_none_iff (λ variant, bool_decide (Tag variant = tag)) (Variants e))
    as Hnone.
  destruct (List.find _ (Variants e)) as [v0|].
  - split; [|split].
    + intros v. split.
      * intros [= <-]. destruct (proj1 (Hfirst v0) eq_refl) as (k & Hk & Htag & Hbefore).
        exists k. split; [exact Hk|].
        split; [apply bool_decide_eq_true_1 in Htag; exact Htag|].
        intros j w Hj Hw. pose proof (Hbefore j w Hj Hw) as Hw'.
        apply bool_decide_eq_false_1 in Hw'. exact Hw'.
      * intros (k & Hk & Htag & Hbefore).
        assert (Some v0 = Some v) as [= ->]; [|reflexivity].
        apply Hfirst. exists k. split; [exact Hk|].
        split; [apply bool_decide_eq_true_2, Htag|].
        intros j w Hj Hw. apply bool_decide_eq_false_2. eauto.
    + split.
      * intros (v & err & Hv). discriminate.
      * intros Hall. destruct (proj1 (Hfirst v0) eq_refl) as (k & Hk & Htag & _).
        apply bool_decide_eq_true_1 in Htag.
        exfalso. apply (Hall v0); [|exact Htag].
        apply (list_elem_of_lookup_2 _ k). exact Hk.
    + intros v err Hv. discriminate.
  - split; [|split].
    + intros v. split; [discriminate|].
      intros (k & Hk & Htag & _).
      pose proof (proj1 Hnone eq_refl v (list_elem_of_lookup_2 _ k _ Hk)) as Hv.
      apply bool_decide_eq_false_1 in Hv. contradiction.
    + split; [|eauto].
      intros _ v Hv. pose proof (proj1 Hnone eq_refl v Hv) as Hv'.
      apply bool_decide_eq_false_1 in Hv'. exact Hv'.
    + intros v err [= <- _]. reflexivity.
Qed.

(* ================================================================= *)
(** ** Selecting a variant through a trial *)

(** A trial whose epsilon-greedy bandit has as many arms as the experiment
    has variants: [Select] returns one of the variants and no error, and
    leaves the trial in a state where the same holds again. *)
Theorem Trial_Select_epsilonGreedy
    {F : Type} {AF : Arith F} {RF : RandLib F} {FF : FmtLib F}
    (t : Trial epsilonGreedy) :
  Intn_in_range → reachable epsilonGreedy_new (trial_Bandit t) →
  eg_arms (trial_Bandit t) = len (Variants (trial_Experiment t)) →
  (1 ≤ eg_arms (trial_Bandit t))%Z →
  ∃ v b',
    Trial_Select t =
      Done (v, None, {| trial_Bandit := b'; trial_Experiment := trial_Experiment t |}) ∧
    v ∈ Variants (trial_Experiment t) ∧
    reachable epsilonGreedy_new b' ∧
    eg_arms b' = len (Variants (trial_Experiment t)).
Proof.
  intros HIntn Hreach Harms H1.
  pose proof (epsilonGreedy_reachable_wf _ Hreach) as Hwf.
  destruct (epsilonGreedy_SelectArm_spec _ HIntn Hwf H1)
    as (arm & b' & Hsel & Hrange & _ & _ & _ & Harms' & _).
  destruct Hwf as ((_ & Hmax) & _).
  destruct (GetVariant_in_range (trial_Experiment t) arm) as (v & Hv & Hget);
    [lia | lia |].
  exists v, b'. split; [|split; [|split]].
  - unfold Trial_Select. cbn [SelectArm epsilonGreedy_Bandit].
    rewrite Hsel. simpl. rewrite Hget. reflexivity.
  - apply (list_elem_of_lookup_2 _ _ _ Hv).
  - apply (reach_SelectArm _ _ arm _ Hreach). exact Hsel.
  - congruence.
Qed.

(** A trial whose softmax bandit has as many arms as the experiment has
    variants: [Select] panics (when the bandit returns 0) or returns the
    variant one position before the index the bandit returned; the last
    variant of the experiment is never selected. *)
Theorem Trial_Select_softmax_never_last
    {F : Type} {AF : Arith F} {MF : MathLib F} {RF : RandLib F} {FF : FmtLib F}
    (t : Trial softmax) :
  reachable softmax_new (trial_Bandit t) →
  sm_arms (trial_Bandit t) = len (Variants (trial_Experiment t)) →
  (1 ≤ sm_arms (trial_Bandit t))%Z →
  Trial_Select t = Panics (IndexOutOfRange (-1) (length (Variants (trial_Experiment t))))
  ∨ ∃ (k : nat) (v : Variant),
      Trial_Select t = Done (v, None, t) ∧
      Variants (trial_Experiment t) !! k = Some v ∧
      k + 1 < length (Variants (trial_Experiment t)).
Proof.
  intros ((_ & Hmax) & _ & Hvalues & _)%softmax_reachable_wf Harms H1.
  destruct (softmax_SelectArm_spec (trial_Bandit t)) as (i & Hsel & Hi).
  assert (0 ≤ i ≤ len (Variants (trial_Experiment t)) - 1)%Z as Hrange.
  { destruct Hi as [Hi | ->]; [lia|].
    unfold int_sub. rewrite wrap_id; [lia|].
    unfold is_int, int_min, int_max in *. lia. }
  unfold Trial_Select. cbn [SelectArm softmax_Bandit]. rewrite Hsel. simpl.
  destruct (decide (i = 0%Z)) as [->|Hne].
  - left. rewrite GetVariant_zero_panics_at. reflexivity.
  - right.
    destruct (GetVariant_in_range (trial_Experiment t) i) as (v & Hv & ->);
      [lia | lia |].
    exists (Z.to_nat (i - 1)), v. split; [destruct t; reflexivity|].
    split; [exact Hv|]. unfold len in Hrange. lia.
Qed.

Lemma Trial_Select_epsilonGreedy_witness :
  ∃ v b',
    Trial_Select (BB := epsilonGreedy_Bandit (FF := fmt_2f))
      {| trial_Bandit := epsilonGreedy_example_state; trial_Experiment := shapes |}
    = Done (v, None, {| trial_Bandit := b'; trial_Experiment := shapes |}) ∧
    v ∈ Variants shapes.
Proof.
  destruct (Trial_Select_epsilonGreedy (FF := fmt_2f)
              {| trial_Bandit := epsilonGreedy_example_state;
                 trial_Experiment := shapes |}
              lcg_Intn_in_range epsilonGreedy_example_reachable
              eq_refl ltac:(simpl; lia))
    as (v & b' & Hsel & Hv & _).
  exists v, b'. split; [exact Hsel | exact Hv].
Defined.

(** Two variants, for a bandit of two arms. *)
Definition colours : Experiment :=
  {| Name := "colour";
     Variants := [{| Ordinal := 1; URL := "/red"; Tag := "colour:red" |};
                  {| Ordinal := 2; URL := "/blue"; Tag := "colour:blue" |}] |}.

Definition colours_trial : Trial (softmax (F := float) (RF := lcg)) :=
  {| trial_Bandit := softmax_fresh_example; trial_Experiment := colours |}.

Lemma Trial_Select_softmax_never_last_witness :
  Trial_Select (BB := softmax_Bandit (MF := series_Exp) (FF := fmt_2f)) colours_trial
    = Panics (IndexOutOfRange (-1) 2)
  ∨ ∃ (k : nat) (v : Variant),
      Trial_Select (BB := softmax_Bandit (MF := series_Exp) (FF := fmt_2f))
        colours_trial = Done (v, None, colours_trial) ∧
      Variants colours !! k = Some v ∧ k + 1 < 2.
Proof.
  exact (Trial_Select_softmax_never_last (MF := series_Exp) (FF := fmt_2f)
           colours_trial softmax_fresh_example_reachable eq_refl ltac:(simpl; lia)).
Defined.

(* ================================================================= *)
(** ** What a successful parse returns *)

Section ParsedExperiments.
Context {PL : ParserLib}.





(** The steps a successful parse went through. *)
Lemma ParseExperiments_Done
    (filename : string) (experiments : gmap string Experiment) :
  ParseExperiments filename = (experiments, None) →
  ∃ records groups,
    os_read filename = ReadAll records ∧
    group_records 0 records ∅ = inr groups ∧
    check_groups (map_range (sort_Sort <$> groups)) = None ∧
    ∀ name, experiments !! name =
            (λ vs, {| Name := name; Variants := sort_Sort vs |}) <$> groups !! name.
Proof.
  unfold ParseExperiments.
  destruct (os_read filename) as [e|e|records]; try discriminate.
  destruct (group_records 0 records ∅) as [e|groups] eqn:Hgroups; [discriminate|].
  cbv zeta. destruct (check_groups _) eqn:Hcheck; [discriminate|].
  intros [= <-]. exists records, groups.
  split; [reflexivity|]. split; [exact Hgroups|]. split; [exact Hcheck|].
  intros name. rewrite map_lookup_imap, lookup_fmap.
  destruct (groups !! name); reflexivity.
Qed.

(** The ordinals of a parsed experiment, in the order of its slice, are
    1, 2, ..., n. *)
Lemma parsed_ordinals
    (filename : string) (experiments : gmap string Experiment)
    (name : string) (e : Experiment) :
  map_range_visits_all →
  ParseExperiments filename = (experiments, None) →
  experiments !! name = Some e →
  Ordinal <$> Variants e = seqZ 1 (len (Variants e)).
Proof.
  intros Hrange (records & groups & _ & _ & Hcheck & Hexp)%ParseExperiments_Done He.
  rewrite Hexp in He.
  destruct (groups !! name) as [vs|] eqn:Hvs; [|discriminate].
  injection He as <-. cbn [Variants].
  apply (noncontiguous_None 0).
  rewrite check_groups_None in Hcheck. apply (Hcheck name).
  pose proof (Hrange _ (sort_Sort <$> groups)) as Hperm. rewrite Hperm.
  apply elem_of_map_to_list. rewrite lookup_fmap, Hvs. reflexivity.
Qed.


(** Lookup by ordinal inverts the parser: in a parsed experiment every
    ordinal of [[1, n]] is answered with the variant that carries it, and
    [GetVariant] on the ordinal of a variant returns that variant. *)
Theorem ParseExperiments_GetVariant
    (filename : string) (experiments : gmap string Experiment)
    (name : string) (e : Experiment) :
  map_range_visits_all →
  ParseExperiments filename = (experiments, None) →
  experiments !! name = Some e →
  (len (Variants e) ≤ int_max)%Z →
  (∀ v, v ∈ Variants e → GetVariant e (Ordinal v) = Done (v, None)) ∧
  (∀ ordinal, (1 ≤ ordinal ≤ len (Variants e))%Z →
     ∃ v, GetVariant e ordinal = Done (v, None) ∧ Ordinal v = ordinal).
Proof.
  intros Hrange Hparse He Hlen.
  pose proof (parsed_ordinals _ _ _ _ Hrange Hparse He) as Hord.
  assert (∀ (k : nat) v, Variants e !! k = Some v → Ordinal v = (Z.of_nat k + 1)%Z)
    as Hat.
  { intros k v Hk.
    assert ((Ordinal <$> Variants e) !! k = Some (Ordinal v)) as Hk'
      by (rewrite list_lookup_fmap, Hk; reflexivity).
    rewrite Hord in Hk'. apply lookup_seqZ in Hk' as [-> _]. lia. }
  split.
  - intros v (k & Hk)%list_elem_of_lookup_1.
    pose proof (lookup_lt_Some _ _ _ Hk) as Hlt.
    rewrite (Hat k v Hk).
    destruct (GetVariant_in_range e (Z.of_nat k + 1)) as (v' & Hv' & ->);
      [unfold len; lia | exact Hlen |].
    replace (Z.to_nat (Z.of_nat k + 1 - 1)) with k in Hv' by lia.
    congruence.
  - intros ordinal Hordinal.
    destruct (GetVariant_in_range e ordinal Hordinal Hlen) as (v & Hv & ->).
    exists v. split; [reflexivity|]. rewrite (Hat _ v Hv). lia.
Qed.

Lemma parse_record_error_any_groups (i : Z) (record : list string)
    (m m' : gmap string (list Variant)) (err : error) :
  parse_record i record m = inl err → parse_record i record m' = inl err.
Proof.
  unfold parse_record.
  destruct record as [|name [|field1 [|url [|tag [|? ?]]]]]; try (intros H; exact H).
  destruct (strconv_Atoi field1) as [ordinal|e]; [|intros H; exact H].
  destruct (bool_decide (length (strings_Fields name) ≠ 1)); [intros H; exact H|].
  destruct (bool_decide (length (strings_Fields tag) ≠ 1)); [intros H; exact H|].
  destruct (negb _); [intros H; exact H | discriminate].
Qed.

Lemma group_records_app (records records' : list (list string)) :
  ∀ (i : Z) (m : gmap string (list Variant)),
    group_records i (records ++ records') m =
      match group_records i records m with
      | inl err => inl err
      | inr m' => group_records (i + len records) records' m'
      end.
Proof.
  induction records as [|record records IH]; intros i m.
  - simpl. f_equal. unfold len. simpl. lia.
  - cbn [app group_records].
    destruct (parse_record i record m) as [err|m1]; [reflexivity|].
    rewrite IH, len_cons.
    destruct (group_records (i + 1) records m1); [reflexivity|].
    f_equal. lia.
Qed.

(** The error of the parser is that of the first record that fails the
    validation, whatever follows it: the records after it are not looked
    at and the check of the ordinals is not reached. *)
Theorem ParseExperiments_first_invalid_record
    (filename : string) (good : list (list string)) (bad : list string)
    (rest : list (list string)) (groups : gmap string (list Variant)) (err : error) :
  os_read filename = ReadAll (good ++ bad :: rest) →
  group_records 0 good ∅ = inr groups →
  parse_record (len good) bad ∅ = inl err →
  ParseExperiments filename = (∅, Some err).
Proof.
  intros Hread Hgood Hbad. unfold ParseExperiments.
  rewrite Hread, group_records_app, Hgood. cbn [group_records].
  rewrite Z.add_0_l.
  rewrite (parse_record_error_any_groups _ _ _ groups _ Hbad). reflexivity.
Qed.

End ParsedExperiments.

(** Two records of one experiment, the second ordinal first. *)
Definition two_records : list (list string) :=
  [["exp"; "2"; "/b"; "exp:b"]; ["exp"; "1"; "/a"; "exp:a"]].

Definition two_records_experiment : Experiment :=
  {| Name := "exp";
     Variants := [{| Ordinal := 1; URL := "/a"; Tag := "exp:a" |};
                  {| Ordinal := 2; URL := "/b"; Tag := "exp:b" |}] |}.

Lemma two_records_parse :
  ParseExperiments (PL := one_file two_records) "experiments.tsv"
  = ({[ "exp" := two_records_experiment ]}, None).
Proof. vm_compute. reflexivity. Qed.

Lemma two_records_lookup :
  ({[ "exp" := two_records_experiment ]} : gmap string Experiment) !! "exp"
  = Some two_records_experiment.
Proof. apply lookup_singleton_eq. Qed.


Lemma ParseExperiments_GetVariant_witness :
  GetVariant two_records_experiment 2
  = Done ({| Ordinal := 2; URL := "/b"; Tag := "exp:b" |}, None).
Proof.
  destruct (ParseExperiments_GetVariant (PL := one_file two_records)
              "experiments.tsv" _ "exp" two_records_experiment
              (one_file_visits_all _) two_records_parse two_records_lookup
              ltac:(vm_compute; discriminate))
    as [Hround _].
  apply (Hround {| Ordinal := 2; URL := "/b"; Tag := "exp:b" |}).
  right. left.
Defined.

(** A valid record, a record with a word for an ordinal, and one more. *)
Definition bad_ordinal_records : list (list string) :=
  [["exp"; "1"; "/a"; "exp:a"]; ["exp"; "two"; "/b"; "exp:b"];
   ["exp"; "7"; "/c"; "exp:c"]].

Lemma ParseExperiments_first_invalid_record_witness :
  ParseExperiments (PL := one_file bad_ordinal_records) "experiments.tsv"
  = (∅, Some (Errorf "invalid ordinal on line %n: %s"
                     [ArgInt 1; ArgLibErr "invalid syntax"])).
Proof.
  assert (∃ groups,
            group_records (PL := one_file bad_ordinal_records) 0
              [["exp"; "1"; "/a"; "exp:a"]] ∅ = inr groups) as [groups Hgood]
    by (eexists; vm_compute; reflexivity).
  exact (ParseExperiments_first_invalid_record (PL := one_file bad_ordinal_records)
           "experiments.tsv" [["exp"; "1"; "/a"; "exp:a"]]
           ["exp"; "two"; "/b"; "exp:b"] [["exp"; "7"; "/c"; "exp:c"]]
           groups _ eq_refl Hgood eq_refl).
Defined.

Lemma two_records_contiguous (name : string) :
  contiguous (variants_of (PL := one_file two_records) name two_records).
Proof.
  unfold contiguous, variants_of, two_records.
  rewrite !filter_cons, filter_nil.
  cbn [record_name lookup list_lookup default]. unfold id.
  destruct (decide ("exp" = name)) as [_|_].
  - change (Ordinal <$> _) with [2; 1]%Z. apply perm_swap.
  - reflexivity.
Qed.

Lemma ParseExperiments_accepts_contiguous_witness :
  ∃ experiments,
    ParseExperiments (PL := one_file two_records) "experiments.tsv"
      = (experiments, None) ∧
    experiments !! "exp" = Some two_records_experiment.
Proof.
  assert (∃ groups,
            group_records (PL := one_file two_records) 0 two_records ∅ = inr groups)
    as [groups Hgroups] by (eexists; vm_compute; reflexivity).
  destruct (ParseExperiments_accepts_contiguous (PL := one_file two_records)
              "experiments.tsv" two_records groups
              (one_file_sorts _) (one_file_visits_all _) eq_refl Hgroups
              two_records_contiguous)
    as (experiments & Hparse & Hlookup).
  exists experiments. split; [exact Hparse|].
  pose proof two_records_parse as Heq. rewrite Hparse in Heq.
  injection Heq as ->. exact two_records_lookup.
Defined.

(* ================================================================= *)
(** ** Trials *)

Section TrialsFacts.
Context {PL : ParserLib} {EL : ErrorLib} {W B : Type}.

(** The loop of [NewTrials] stops at the first error of the factory, and
    then nothing of what it has built is returned. *)
Lemma make_trials_error (f : BanditFactory W B) (l : list (string * Experiment)) :
  ∀ (trials trials' : gmap string (Trial B)) (w w' : W) (err : error),
    make_trials f l trials w = Done (trials', Some err, w') →
    trials' = ∅ ∧
    ∃ w1 arms b ferr,
      f w1 arms = Done (b, Some ferr, w') ∧ err = Errorf (error_Error ferr) [].
Proof.
  induction l as [|[name e] l IH]; intros trials trials' w w' err; cbn [make_trials].
  - discriminate.
  - destruct (f w (len (Variants e))) as [[[b [ferr|]] w1]|p] eqn:Hf; simpl.
    + intros [= <- <- <-]. split; [reflexivity|].
      exists w, (len (Variants e)), b, ferr. split; [exact Hf | reflexivity].
    + apply IH.
    + discriminate.
Qed.

(** When the loop ends without an error it has filed one trial under each
    name it visited, made of the experiment under that name and of a bandit
    the factory returned for the number of its variants. *)
Lemma make_trials_Done (f : BanditFactory W B) (l : list (string * Experiment)) :
  ∀ (trials trials' : gmap string (Trial B)) (w w' : W),
    make_trials f l trials w = Done (trials', None, w') →
    (∀ name, is_Some (trials' !! name) ↔ is_Some (trials !! name) ∨ name ∈ l.*1) ∧
    (∀ name trial, trials' !! name = Some trial →
       trials !! name = Some trial ∨
       ((name, trial_Experiment trial) ∈ l ∧
        ∃ w1 w2, f w1 (len (Variants (trial_Experiment trial)))
                 = Done (trial_Bandit trial, None, w2))).
Proof.
  induction l as [|[name e] l IH]; intros trials trials' w w'; cbn [make_trials].
  - intros [= <- <-]. split.
    + intros name. split; [auto|]. intros [H|H]; [exact H | inversion H].
    + auto.
  - destruct (f w (len (Variants e))) as [[[b [ferr|]] w1]|p] eqn:Hf; simpl;
      [discriminate| |discriminate].
    intros [Hdom Htrials]%IH. split.
    + intros name'. rewrite Hdom, lookup_insert_is_Some, elem_of_cons.
      destruct (decide (name = name')) as [->|Hne]; [tauto|].
      split.
      * intros [[Heq|[_ H]]|H]; [contradiction | tauto | tauto].
      * intros [H|[Heq|H]]; [tauto | congruence | tauto].
    + intros name' trial [Hin|(Hin & Hf')]%Htrials.
      * destruct (decide (name = name')) as [->|Hne].
        -- rewrite lookup_insert_eq in Hin. injection Hin as <-.
           right. cbn [trial_Experiment trial_Bandit].
           split; [left | eauto].
        -- rewrite lookup_insert_ne in Hin by exact Hne. left. exact Hin.
      * right. split; [right; exact Hin | exact Hf'].
Qed.

(** [NewTrials] without an error: the trials are filed under the names of
    the parsed experiments, one for each, and each is made of the experiment
    under its name and of a bandit the factory returned, without an error,
    when it was called with the number of variants of that experiment. *)
Theorem NewTrials_trials
    (experimentsTSV : string) (f : BanditFactory W B) (w w' : W)
    (trials : gmap string (Trial B)) :
  map_range_visits_all →
  NewTrials experimentsTSV f w = Done (trials, None, w') →
  ∃ experiments,
    ParseExperiments experimentsTSV = (experiments, None) ∧
    (∀ name, is_Some (trials !! name) ↔ is_Some (experiments !! name)) ∧
    (∀ name trial, trials !! name = Some trial →
       experiments !! name = Some (trial_Experiment trial) ∧
       ∃ w1 w2, f w1 (len (Variants (trial_Experiment trial)))
                = Done (trial_Bandit trial, None, w2)).
Proof.
  intros Hrange. unfold NewTrials.
  destruct (ParseExperiments experimentsTSV) as [experiments [perr|]];
    [discriminate|].
  intros [Hdom Htrials]%make_trials_Done.
  pose proof (Hrange _ experiments) as Hperm.
  exists experiments. split; [reflexivity|]. split.
  - intros name. rewrite Hdom, lookup_empty, Hperm.
    rewrite list_elem_of_fmap. split.
    + intros [[? [=]]|([name' e] & -> & He)]. cbn [fst].
      apply elem_of_map_to_list in He. eauto.
    + intros [e He]. right. exists (name, e). split; [reflexivity|].
      apply elem_of_map_to_list. exact He.
  - intros name trial [Hin|(Hin & Hf)]%Htrials.
    + rewrite lookup_empty in Hin. discriminate.
    + split; [|exact Hf]. rewrite Hperm in Hin.
      apply elem_of_map_to_list in Hin. exact Hin.
Qed.

(** [NewTrials] with an error returns no trial.  The error is that of the
    parser, wrapped, and then the world of the factory is as it was; or it
    is made of the message of an error the factory returned. *)
Theorem NewTrials_error
    (experimentsTSV : string) (f : BanditFactory W B) (w w' : W)
    (trials : gmap string (Trial B)) (err : error) :
  NewTrials experimentsTSV f w = Done (trials, Some err, w') →
  trials = ∅ ∧
  ((∃ experiments perr,
      ParseExperiments experimentsTSV = (experiments, Some perr) ∧
      err = Errorf "could not read experiments: %s" [ArgStr (error_Error perr)] ∧
      w' = w)
   ∨ (∃ experiments w1 arms b ferr,
        ParseExperiments experimentsTSV = (experiments, None) ∧
        f w1 arms = Done (b, Some ferr, w') ∧
        err = Errorf (error_Error ferr) [])).
Proof.
  unfold NewTrials.
  destruct (ParseExperiments experimentsTSV) as [experiments [perr|]].
  - intros [= <- <- <-]. split; [reflexivity|]. left. eauto.
  - intros (-> & w1 & arms & b & ferr & Hf & ->)%make_trials_error.
    split; [reflexivity|]. right. eauto 10.
Qed.

Lemma find_tagged_Some (tag : string) (l : list (string * Trial B))
    (e : Experiment) (v : Variant) :
  find_tagged tag l = Some (e, v) →
  ∃ name trial,
    (name, trial) ∈ l ∧ trial_Experiment trial = e ∧
    List.find (λ variant, bool_decide (Tag variant = tag)) (Variants e) = Some v.
Proof.
  induction l as [|[name trial] l IH]; cbn [find_tagged]; [discriminate|].
  destruct (List.find _ (Variants (trial_Experiment trial))) as [v0|] eqn:Hfind.
  - intros [= <- <-]. exists name, trial. split; [left | auto].
  - intros (name' & trial' & Hin & He & Hv)%IH.
    exists name', trial'. split; [right; exact Hin | auto].
Qed.

Lemma find_tagged_None (tag : string) (l : list (string * Trial B)) :
  find_tagged tag l = None ↔
  ∀ name trial v, (name, trial) ∈ l → v ∈ Variants (trial_Experiment trial) →
                  Tag v ≠ tag.
Proof.
  induction l as [|[name trial] l IH]; cbn [find_tagged].
  - split; [|reflexivity]. intros _ name trial v Hin. inversion Hin.
  - destruct (List.find _ (Variants (trial_Experiment trial))) as [v0|] eqn:Hfind.
    + split; [discriminate|]. intros Hall.
      apply find_first in Hfind as (k & Hk & Htag & _).
      apply bool_decide_eq_true_1 in Htag.
      exfalso. apply (Hall name trial v0); [left | | exact Htag].
      apply (list_elem_of_lookup_2 _ k). exact Hk.
    + rewrite IH. split.
      * intros Hall name' trial' v [Heq|Hin]%elem_of_cons Hv.
        -- injection Heq as -> ->.
           pose proof (proj1 (find_none_iff _ _) Hfind v Hv) as Hv'.
           apply bool_decide_eq_false_1 in Hv'. exact Hv'.
        -- apply (Hall name' trial' v Hin Hv).
      * intros Hall name' trial' v Hin. apply (Hall name' trial' v). right. exact Hin.
Qed.

(** [Trials.GetVariant] finds a variant exactly when some trial has one
    with the tag.  What it returns is then the experiment of one of the
    trials and what [GetTaggedVariant] of that experiment answers for the
    tag; without such a variant it returns the zero values and the error. *)
Theorem Trials_GetVariant_found (t : gmap string (Trial B)) (tag : string) :
  map_range_visits_all →
  (∀ e v, Trials_GetVariant t tag = (e, v, None) →
     ∃ name trial,
       t !! name = Some trial ∧ trial_Experiment trial = e ∧
       GetTaggedVariant e tag = (v, None)) ∧
  ((∃ e v, Trials_GetVariant t tag = (e, v, None)) ↔
   ∃ name trial v,
     t !! name = Some trial ∧ v ∈ Variants (trial_Experiment trial) ∧ Tag v = tag) ∧
  (∀ e v err, Trials_GetVariant t tag = (e, v, Some err) →
     e = Experiment_zero ∧ v = Variant_zero ∧
     err = Errorf "could not find variant '%s'" [ArgStr tag]).
Proof.
  intros Hrange. pose proof (Hrange _ t) as Hperm. unfold Trials_GetVariant.
  destruct (find_tagged tag (map_range t)) as [[e0 v0]|] eqn:Hfind.
  - destruct (find_tagged_Some _ _ _ _ Hfind) as (name & trial & Hin & He & Hv).
    rewrite Hperm in Hin. apply elem_of_map_to_list in Hin.
    split; [|split].
    + intros e v [= <- <-]. exists name, trial.
      split; [exact Hin|]. split; [exact He|].
      unfold GetTaggedVariant. rewrite Hv. reflexivity.
    + split; [|eauto]. intros _.
      apply find_first in Hv as (k & Hk & Htag & _).
      apply bool_decide_eq_true_1 in Htag.
      exists name, trial, v0. split; [exact Hin|]. rewrite He.
      split; [|exact Htag]. apply (list_elem_of_lookup_2 _ k). exact Hk.
    + discriminate.
  - rewrite find_tagged_None in Hfind. split; [|split].
    + discriminate.
    + split; [intros (e & v & [=])|].
      intros (name & trial & v & Hin & Hv & Htag).
      exfalso. apply (Hfind name trial v); [|exact Hv|exact Htag].
      rewrite Hperm. apply elem_of_map_to_list. exact Hin.
    + intros e v err [= <- <- <-]. auto.
Qed.

End TrialsFacts.

(** [fmt.Sprintf] that leaves the verbs of the format as they are. *)
Definition plain_errors : ErrorLib := {| fmt_Sprintf := λ format _, format |}.

(** [func(arms int) (Bandit, error) { return EpsilonGreedyNew(arms, epsilon) }]
    with the clock for a world: each call reads it and moves it on. *)
Definition greedy_factory (epsilon : float)
  : BanditFactory Z (epsilonGreedy (F := float) (RF := lcg)) :=
  λ now arms,
    '(b, err) ← EpsilonGreedyNew now arms epsilon;
    mret (b, err, (now + 1)%Z).

Definition two_records_trial : Trial (epsilonGreedy (F := float) (RF := lcg)) :=
  {| trial_Bandit :=
       {| eg_counts := [0; 0]%Z; eg_values := [0; 0]%float;
          eg_epsilon := 0.25%float; eg_arms := 2;
          eg_rand := Some (rand_New (RandLib := lcg (F := float)) 7%Z) |};
     trial_Experiment := two_records_experiment |}.

Lemma NewTrials_two_records :
  NewTrials (PL := one_file two_records) (EL := plain_errors)
    "experiments.tsv" (greedy_factory 0.25) 7%Z
  = Done ({[ "exp" := two_records_trial ]}, None, 8%Z).
Proof.
  unfold NewTrials. rewrite two_records_parse.
  cbn [map_range one_file]. rewrite map_to_list_singleton. reflexivity.
Qed.

Lemma NewTrials_trials_witness :
  ∃ experiments,
    ParseExperiments (PL := one_file two_records) "experiments.tsv"
      = (experiments, None) ∧
    experiments !! "exp" = Some two_records_experiment ∧
    ∃ w1 w2, greedy_factory 0.25 w1 (len (Variants two_records_experiment))
             = Done (trial_Bandit two_records_trial, None, w2).
Proof.
  destruct (NewTrials_trials (PL := one_file two_records) (EL := plain_errors)
              "experiments.tsv" (greedy_factory 0.25) 7%Z 8%Z
              {[ "exp" := two_records_trial ]}
              (one_file_visits_all _) NewTrials_two_records)
    as (experiments & Hparse & _ & Htrial).
  exists experiments. split; [exact Hparse|].
  apply (Htrial "exp" two_records_trial). apply lookup_singleton_eq.
Defined.

Lemma NewTrials_refused :
  NewTrials (PL := one_file two_records) (EL := plain_errors)
    "experiments.tsv" (greedy_factory 1.5) 7%Z
  = Done (∅, Some (Errorf "epsilon not in [0, 1]" []), 8%Z).
Proof.
  unfold NewTrials. rewrite two_records_parse.
  cbn [map_range one_file]. rewrite map_to_list_singleton. reflexivity.
Qed.

Lemma NewTrials_error_witness :
  NewTrials (PL := one_file two_records) (EL := plain_errors)
    "experiments.tsv" (greedy_factory 1.5) 7%Z
  = Done (∅, Some (Errorf "epsilon not in [0, 1]" []), 8%Z) ∧
  ∃ experiments w1 arms b ferr,
    ParseExperiments (PL := one_file two_records) "experiments.tsv"
      = (experiments, None) ∧
    greedy_factory 1.5 w1 arms = Done (b, Some ferr, 8%Z) ∧
    Errorf "epsilon not in [0, 1]" []
      = Errorf (error_Error (EL := plain_errors) ferr) [].
Proof.
  split; [exact NewTrials_refused|].
  destruct (NewTrials_error (PL := one_file two_records) (EL := plain_errors)
              "experiments.tsv" (greedy_factory 1.5) 7%Z 8%Z ∅ _ NewTrials_refused)
    as [_ [(experiments & perr & Hparse & _)|Hfactory]].
  - rewrite two_records_parse in Hparse. discriminate.
  - exact Hfactory.
Defined.

Lemma Trials_GetVariant_found_witness :
  ∃ e v, Trials_GetVariant (PL := one_file []) {[ "colour" := colours_trial ]}
           "colour:blue" = (e, v, None).
Proof.
  apply (Trials_GetVariant_found (PL := one_file []) {[ "colour" := colours_trial ]}
           "colour:blue" (one_file_visits_all _)).
  exists "colour", colours_trial, {| Ordinal := 2; URL := "/blue"; Tag := "colour:blue" |}.
  split; [apply lookup_singleton_eq|]. split; [right; left | reflexivity].
Defined.

(* ================================================================= *)
(** ** The sort.Interface of Variants *)

Lemma Variants_Swap_Done (v : list Variant) (i j : Z) (vi vj : Variant) :
  (0 ≤ i)%Z → (0 ≤ j)%Z →
  v !! Z.to_nat i = Some vi → v !! Z.to_nat j = Some vj →
  Variants_Swap v i j = Done (<[Z.to_nat j := vi]> (<[Z.to_nat i := vj]> v)).
Proof.
  intros Hi Hj Hvi Hvj. unfold Variants_Swap.
  rewrite (proj2 (index_Done v j vj) (conj Hj Hvj)). simpl.
  rewrite (proj2 (index_Done v i vi) (conj Hi Hvi)). simpl.
  pose proof (lookup_lt_Some _ _ _ Hvi) as Hli.
  pose proof (lookup_lt_Some _ _ _ Hvj) as Hlj.
  rewrite store_in_range by (unfold len; lia). simpl.
  rewrite store_in_range by (rewrite len_insert; unfold len; lia).
  reflexivity.
Qed.

(** [Swap] on two positions of the slice exchanges the two elements and
    leaves the others and the length: the result is a permutation, and a
    second [Swap] on the same positions restores the slice. *)
Theorem Variants_Swap_exchanges (v : list Variant) (i j : Z) :
  (0 ≤ i < len v)%Z → (0 ≤ j < len v)%Z →
  ∃ v',
    Variants_Swap v i j = Done v' ∧
    Variants_Len v' = Variants_Len v ∧
    v' !! Z.to_nat i = v !! Z.to_nat j ∧
    v' !! Z.to_nat j = v !! Z.to_nat i ∧
    (∀ k, k ≠ Z.to_nat i → k ≠ Z.to_nat j → v' !! k = v !! k) ∧
    v' ≡ₚ v ∧
    Variants_Swap v' i j = Done v.
Proof.
  intros Hi Hj.
  destruct (index_in_range v i Hi) as (vi & _ & Hvi).
  destruct (index_in_range v j Hj) as (vj & _ & Hvj).
  pose proof (lookup_lt_Some _ _ _ Hvi) as Hli.
  pose proof (lookup_lt_Some _ _ _ Hvj) as Hlj.
  set (ni := Z.to_nat i) in *. set (nj := Z.to_nat j) in *.
  assert ((<[nj := vi]> (<[ni := vj]> v)) !! nj = Some vi) as Hj'.
  { apply list_lookup_insert_eq. rewrite length_insert. exact Hlj. }
  assert ((<[nj := vi]> (<[ni := vj]> v)) !! ni = Some vj) as Hi'.
  { destruct (decide (nj = ni)) as [Heq|Hne].
    - rewrite Heq in *. rewrite Hj'. congruence.
    - rewrite list_lookup_insert_ne by exact Hne.
      apply list_lookup_insert_eq. exact Hli. }
  exists (<[nj := vi]> (<[ni := vj]> v)).
  split; [apply Variants_Swap_Done; (lia || assumption)|].
  split; [unfold Variants_Len; rewrite !len_insert; reflexivity|].
  split; [rewrite Hi', Hvj; reflexivity|].
  split; [rewrite Hj', Hvi; reflexivity|].
  split.
  { intros k Hki Hkj. rewrite !list_lookup_insert_ne by (symmetry; assumption).
    reflexivity. }
  split; [apply Permutation_insert_swap; assumption|].
  rewrite (Variants_Swap_Done _ i j vj vi) by (lia || assumption).
  fold ni nj. f_equal.
  destruct (decide (ni = nj)) as [Heq|Hne].
  - rewrite Heq in *. rewrite !list_insert_insert_eq.
    apply list_insert_id. exact Hvj.
  - rewrite (list_insert_insert_ne _ ni nj vi vi) by exact Hne.
    rewrite list_insert_insert_eq, list_insert_insert_eq.
    rewrite (list_insert_insert_ne _ nj ni vj vi) by (symmetry; exact Hne).
    rewrite (list_insert_id _ nj vj) by exact Hvj.
    apply list_insert_id. exact Hvi.
Qed.

Lemma Variants_Swap_exchanges_witness :
  ∃ v', Variants_Swap (Variants shapes) 0 2 = Done v' ∧
        Ordinal <$> v' = [3; 2; 1]%Z ∧
        Variants_Swap v' 0 2 = Done (Variants shapes).
Proof.
  destruct (Variants_Swap_exchanges (Variants shapes) 0 2
              ltac:(unfold len; simpl; lia) ltac:(unfold len; simpl; lia))
    as (v' & Hswap & _ & _ & _ & _ & _ & Hback).
  exists v'. split; [exact Hswap|]. split; [|exact Hback].
  vm_compute in Hswap. injection Hswap as <-. reflexivity.
Defined.

(* ================================================================= *)
(** ** What no call changes *)

(** [calls b b']: a sequence of calls of [SelectArm], [Update] and [Reset]
    that all return leads from the state [b] to the state [b']. *)
Inductive calls {F B : Type} {BB : Bandit F B} : B → B → Prop :=
| calls_none b :
    calls b b
| calls_SelectArm b b1 arm b' :
    calls b b1 → SelectArm b1 = Done (arm, b') → calls b b'
| calls_Update b b1 arm reward b' :
    calls b b1 → Update b1 arm reward = Done b' → calls b b'
| calls_Reset b b1 now b' :
    calls b b1 → Reset now b1 = Done b' → calls b b'.

Section VersionFacts.
Context {F : Type} {AF : Arith F} {MF : MathLib F} {RF : RandLib F}
        {FF : FmtLib F}.

Lemma epsilonGreedy_calls_keep (e e' : epsilonGreedy) :
  calls e e' → eg_epsilon e' = eg_epsilon e ∧ eg_arms e' = eg_arms e.
Proof.
  induction 1 as [e
                 | e e1 arm e' Hcalls IH Hsel
                 | e e1 arm reward e' Hcalls IH Hupd
                 | e e1 now e' Hcalls IH Hreset].
  - auto.
  - simpl in Hsel. unfold epsilonGreedy_SelectArm in Hsel.
    apply bind_Done_inv in Hsel as (g & _ & Hsel).
    destruct (rand_Float64 g) as [u g1].
    apply bind_Done_inv in Hsel as ([a g2] & _ & Hsel).
    exec_inv Hsel. injection Hsel as _ <-. exact IH.
  - simpl in Hupd. unfold epsilonGreedy_Update in Hupd.
    exec_inv Hupd. injection Hupd as <-. exact IH.
  - simpl in Hreset. unfold epsilonGreedy_Reset in Hreset.
    exec_inv Hreset. injection Hreset as <-. exact IH.
Qed.

Lemma softmax_calls_keep (s s' : softmax) :
  calls s s' → sm_tau s' = sm_tau s ∧ sm_arms s' = sm_arms s.
Proof.
  induction 1 as [s
                 | s s1 arm s' Hcalls IH Hsel
                 | s s1 arm reward s' Hcalls IH Hupd
                 | s s1 now s' Hcalls IH Hreset].
  - auto.
  - simpl in Hsel. destruct (softmax_SelectArm_spec s1) as (i & Hi & _).
    rewrite Hi in Hsel. injection Hsel as _ <-. exact IH.
  - simpl in Hupd. unfold softmax_Update in Hupd.
    exec_inv Hupd. injection Hupd as <-. exact IH.
  - simpl in Hreset. unfold softmax_Reset in Hreset.
    exec_inv Hreset. injection Hreset as <-. exact IH.
Qed.

(** No sequence of calls changes what [Version] reports, the parameter or
    the number of arms: they are those the bandit had before the calls. *)
Theorem Version_constant :
  (∀ e e' : epsilonGreedy,
     calls e e' →
     Version e' = Version e ∧
     eg_epsilon e' = eg_epsilon e ∧ eg_arms e' = eg_arms e) ∧
  (∀ s s' : softmax,
     calls s s' →
     Version s' = Version s ∧
     sm_tau s' = sm_tau s ∧ sm_arms s' = sm_arms s).
Proof.
  split.
  - intros e e' [Heps Harms]%epsilonGreedy_calls_keep.
    split; [|auto]. simpl. unfold epsilonGreedy_Version. rewrite Heps. reflexivity.
  - intros s s' [Htau Harms]%softmax_calls_keep.
    split; [|auto]. simpl. unfold softmax_Version. rewrite Htau. reflexivity.
Qed.

End VersionFacts.

Lemma Version_constant_witness :
  ∃ e', calls (BB := epsilonGreedy_Bandit (FF := fmt_2f))
          epsilonGreedy_example_state e' ∧
        eg_counts e' = [0; 0; 0]%Z ∧
        Version (Bandit := epsilonGreedy_Bandit (FF := fmt_2f)) e'
          = "EpsilonGreedy(epsilon=0.25)".
Proof.
  assert (∃ e', Reset (Bandit := epsilonGreedy_Bandit (FF := fmt_2f)) 9
                  epsilonGreedy_example_state = Done e' ∧
                eg_counts e' = [0; 0; 0]%Z) as (e' & Hreset & Hcounts)
    by (eexists; split; reflexivity).
  assert (calls (BB := epsilonGreedy_Bandit (FF := fmt_2f))
            epsilonGreedy_example_state e') as Hcalls
    by (eapply calls_Reset; [apply calls_none | exact Hreset]).
  exists e'. split; [exact Hcalls|]. split; [exact Hcounts|].
  destruct (Version_constant (F := float) (MF := series_Exp) (RF := lcg) (FF := fmt_2f))
    as [Heg _].
  destruct (Heg _ _ Hcalls) as (-> & _). reflexivity.
Defined.
